(** * The trie index of package [indexes]: model and verification

    The Go package keeps a prefix tree from lower-cased keys to sets of
    [bson.ObjectId]s.  This file embeds [trienode.go] and the trie file
    (type [Trie] with [Add], [Remove], [Get], [GetMany] and their helpers)
    and proves the properties of the design document about them.

    Conventions of the embedding.
    - A [*TrieNode] is an [option TrieNode]; [None] is [nil].  The nodes
      are owned by the tree (no node is shared by two parents), so a node is
      a value and an in-place update through a pointer is the new value of
      the node, written back into its parent on the way up.
    - A [map[rune]*TrieNode] is a [gmap rune (option TrieNode)]: a key can
      be present and mapped to [nil], which is what [RemoveLink] leaves.
    - Dereferencing [nil] is a run-time panic: operations live in the
      [result] monad, and [deref] is the one place that produces [Panic].
    - The [sync.RWMutex] is the history of the calls made on it. *)

From Stdlib Require Import Ascii.
From stdpp Require Import base option list gmap sets strings.

Local Open Scope Z_scope.

(** ** Results of code that can panic *)

Inductive result (A : Type) : Type :=
  | Ok (a : A)
  | Panic.
Arguments Ok {A} a.
Arguments Panic {A}.

#[export] Instance result_ret : MRet result := @Ok.
#[export] Instance result_bind : MBind result := fun A B f m =>
  match m with
  | Ok a => f a
  | Panic => Panic
  end.

(** ** Runes, strings and identifiers *)

(** Go's [rune] is an [int32]; the tree only ever sees [rune(s[i])] for a
    byte [s[i]] of the key. *)
Definition rune : Type := Z.

Definition rune_of_byte (b : ascii) : rune := Z.of_N (N_of_ascii b).

(** [bson.ObjectId] is declared as [type ObjectId string]. *)
Definition ObjectId : Type := string.

(** ** IDSet *)

Module IDSet.

(** Modelled from the spec: the type [IDSet] and its methods [NewIDSet],
    [SaveVal], [Remove], [ContainsVal], [Size] and [GetVals], whose file is
    not among the sources.  The document describes it as an unordered
    collection of distinct identifiers: [Add(id)] inserts [id] if absent,
    [Remove(id)] deletes it if present, [Contains], [Size], and [Values]
    materialises the members in an unspecified order. *)
Definition t : Type := gset ObjectId.

Definition NewIDSet : t := ∅.
Definition SaveVal (s : t) (id : ObjectId) : t := {[ id ]} ∪ s.
Definition Remove (s : t) (id : ObjectId) : t := s ∖ {[ id ]}.
Definition ContainsVal (s : t) (id : ObjectId) : bool := bool_decide (id ∈ s).
Definition Size (s : t) : Z := Z.of_nat (size s).
Definition GetVals (s : t) : list ObjectId := elements s.

End IDSet.

(** ** trienode.go *)

#[warnings="-register-all"]
Inductive TrieNode : Type :=
  mkTrieNode { link : gmap rune (option TrieNode); IDSet : IDSet.t }.

(** A [*TrieNode]; [None] is [nil]. *)
Abbreviation ptr := (option TrieNode).

(** The dereference performed by every method call [p.M(..)] and field
    access through a pointer. *)
Definition deref (p : ptr) : result TrieNode :=
  match p with
  | Some n => Ok n
  | None => Panic
  end.

Definition NewTrieNode : TrieNode :=
  {| link := ∅; IDSet := IDSet.NewIDSet |}.

(** [tn.link[r]]: the zero value [nil] when [r] is not a key. *)
Definition GetLink (tn : TrieNode) (r : rune) : ptr :=
  default None (link tn !! r).

Definition PutLink (tn : TrieNode) (r : rune) (l : ptr) : TrieNode :=
  {| link := <[ r := l ]> (link tn); IDSet := IDSet tn |}.

(** [for k := range tn.link { keys = append(keys, k) }].  Go leaves the
    order of [range] over a map unspecified; the model ranges in the order
    in which [map_fold] visits the entries. *)
Definition GetAllRunes (tn : TrieNode) : list rune :=
  map_fold (fun k (_ : ptr) keys => keys ++ [k]) [] (link tn).

(** [tn.link[r] = nil]: the key stays in the map. *)
Definition RemoveLink (tn : TrieNode) (r : rune) : TrieNode :=
  {| link := <[ r := None ]> (link tn); IDSet := IDSet tn |}.

Definition SaveVal (tn : TrieNode) (id : ObjectId) : TrieNode :=
  {| link := link tn; IDSet := IDSet.SaveVal (IDSet tn) id |}.

Definition GetVals (tn : TrieNode) : list ObjectId :=
  IDSet.GetVals (IDSet tn).

Definition RemoveVal (tn : TrieNode) (id : ObjectId) : TrieNode :=
  {| link := link tn; IDSet := IDSet.Remove (IDSet tn) id |}.

Definition ContainsVal (tn : TrieNode) (id : ObjectId) : bool :=
  IDSet.ContainsVal (IDSet tn) id.

Definition IsLeafNode (tn : TrieNode) : bool :=
  Nat.eqb (length (GetAllRunes tn)) 0.

(** ** The trie *)

(** The calls a [sync.RWMutex] receives. *)
Inductive MxCall : Type := CLock | CUnlock | CRLock | CRUnlock.

(** The mutex, as the history of the calls made on it, oldest first. *)
Definition RWMutex : Type := list MxCall.

Record Trie : Type := mkTrie { root : ptr; mx : RWMutex }.

Definition mx_call (c : MxCall) (t : Trie) : Trie :=
  {| root := root t; mx := mx t ++ [c] |}.

Definition set_root (t : Trie) (n : TrieNode) : Trie :=
  {| root := Some n; mx := mx t |}.

Definition NewTrie : Trie :=
  {| root := Some NewTrieNode; mx := [] |}.

(** The loop of [Add], from the position [i] whose remaining bytes are [s].
    Returns the node [curr] points to as the loop leaves it, and the final
    value of the variable [curr]. *)
Fixpoint add_loop (s : string) (id : ObjectId) (curr : ptr)
  : result (TrieNode * ptr) :=
  n ← deref curr;
  match s with
  | EmptyString =>
      let n := if negb (ContainsVal n id) then SaveVal n id else n in
      Ok (n, Some n)
  | String b s' =>
      let r := rune_of_byte b in
      let link := GetLink n r in
      match link with
      | Some _ =>
          '(child, tip) ← add_loop s' id (GetLink n r);
          Ok (PutLink n r (Some child), tip)
      | None =>
          let newNode := NewTrieNode in
          let n := PutLink n r (Some newNode) in
          '(child, tip) ← add_loop s' id (Some newNode);
          Ok (PutLink n r (Some child), tip)
      end
  end.

(** [findTip]: [prefix] is what is left of the prefix from position [i]. *)
Fixpoint findTip (prefix : string) (curr : ptr) : result ptr :=
  match prefix with
  | EmptyString => Ok curr
  | String b prefix' =>
      let r := rune_of_byte b in
      n ← deref curr;
      match GetLink n r with
      | Some _ => findTip prefix' (GetLink n r)
      | None => Ok None
      end
  end.

(** [removeHelper (curr, prefix, id, index)]: the argument [suffix] is
    [prefix[index:]], so that [index == len(prefix)] is [suffix = ""] and
    [prefix[index]] is its first byte.  Returns the boolean of the source and
    the node [curr] points to after the call. *)
Fixpoint removeHelper (curr : ptr) (suffix : string) (id : ObjectId)
  : result (bool * TrieNode) :=
  n ← deref curr;
  match suffix with
  | EmptyString =>
      if negb (ContainsVal n id) then Ok (false, n)
      else
        let n := RemoveVal n id in
        if Nat.eqb (length (GetVals n)) 0 && IsLeafNode n
        then Ok (true, n)
        else Ok (false, n)
  | String b suffix' =>
      let r := rune_of_byte b in
      let node := GetLink n r in
      match node with
      | None => Ok (false, n)
      | Some _ =>
          '(shouldDelete, child) ← removeHelper node suffix' id;
          let n := PutLink n r (Some child) in
          if shouldDelete : bool then
            let n := RemoveLink n r in
            Ok (IsLeafNode n, n)
          else Ok (false, n)
      end
  end.

(** The loop [for i ... { if res.Size() < max { res.SaveVal(idList[i]) } }]. *)
Definition save_upto (max : Z) (idList : list ObjectId) (res : IDSet.t)
  : IDSet.t :=
  foldl (fun res id =>
           if bool_decide (IDSet.Size res < max)
           then IDSet.SaveVal res id else res)
        res idList.

(** [depthFirst] on a node that is not [nil].  The loop over [runes] is a
    [map_fold] over the entries [(r, c)] of the map, in the order in which
    [GetAllRunes] lists the keys, with [c] for [curr.GetLink(r)]: the
    recursion is then structural ([depthFirst_by_runes] below shows that
    this is the loop of the source). *)
Fixpoint depthFirst_node (curr : TrieNode) (max : Z) (res : IDSet.t)
  : IDSet.t :=
  let idList := GetVals curr in
  let children res :=
    map_fold
      (fun _ (c : ptr) res =>
         match c with
         | None => res
         | Some n => depthFirst_node n max res
         end)
      res (link curr) in
  if bool_decide (0 < length idList)%nat then
    let res := save_upto max idList res in
    if IsLeafNode curr then res else children res
  else children res.

Definition depthFirst (curr : ptr) (max : Z) (res : IDSet.t) : IDSet.t :=
  match curr with
  | None => res
  | Some n => depthFirst_node n max res
  end.

(** Every run of [depthFirst].  Go does not fix the order of [range] over a
    map, and the order of [GetVals] is left open: a run may take any
    enumeration [runes] of the keys of the node and any enumeration [idList]
    of its identifiers.  The function [depthFirst] is the run that takes
    both as the model enumerates them ([depthFirst_is_a_run] below). *)
Inductive DepthFirst (max : Z) : ptr → IDSet.t → IDSet.t → Prop :=
  | DepthFirst_nil res :
      DepthFirst max None res res
  | DepthFirst_leaf n idList res :
      idList ≡ₚ GetVals n →
      (0 < length idList)%nat →
      IsLeafNode n = true →
      DepthFirst max (Some n) res (save_upto max idList res)
  | DepthFirst_values n runes idList res res' :
      runes ≡ₚ GetAllRunes n →
      idList ≡ₚ GetVals n →
      (0 < length idList)%nat →
      IsLeafNode n = false →
      DepthFirst_range max n runes (save_upto max idList res) res' →
      DepthFirst max (Some n) res res'
  | DepthFirst_no_values n runes res res' :
      runes ≡ₚ GetAllRunes n →
      length (GetVals n) = 0%nat →
      DepthFirst_range max n runes res res' →
      DepthFirst max (Some n) res res'
with DepthFirst_range (max : Z)
  : TrieNode → list rune → IDSet.t → IDSet.t → Prop :=
  | DepthFirst_range_nil n res :
      DepthFirst_range max n [] res res
  | DepthFirst_range_cons n r runes res res' res'' :
      DepthFirst max (GetLink n r) res res' →
      DepthFirst_range max n runes res' res'' →
      DepthFirst_range max n (r :: runes) res res''.

Scheme DepthFirst_run_ind := Minimality for DepthFirst Sort Prop
  with DepthFirst_range_run_ind := Minimality for DepthFirst_range Sort Prop.

(** [Remove]: no case folding and no call on the mutex. *)
Definition Remove (prefix : string) (id : ObjectId) (t : Trie) : result Trie :=
  '(_, n) ← removeHelper (root t) prefix id;
  Ok (set_root t n).

Section Folded.

(** [strings.ToLower] of the Go library. *)
Variable ToLower : string → string.

Definition Add (s : string) (id : ObjectId) (t : Trie)
  : result (ptr * Trie) :=
  let s := ToLower s in
  let t := mx_call CLock t in
  '(n, curr) ← add_loop s id (root t);
  let t := set_root t n in
  let t := mx_call CUnlock t in
  Ok (curr, t).

Definition Get (prefix : string) (t : Trie)
  : result (list ObjectId * Trie) :=
  let prefix := ToLower prefix in
  let t := mx_call CRLock t in
  curr ← findTip prefix (root t);
  let ret :=
    match curr with
    | Some n =>
        let vals := GetVals n in
        if negb (Nat.eqb (length vals) 0) then vals else []
    | None => []
    end in
  Ok (ret, mx_call CRUnlock t).

Definition GetMany (prefix : string) (n : Z) (t : Trie)
  : result (list ObjectId * Trie) :=
  let prefix := ToLower prefix in
  let t := mx_call CRLock t in
  curr ← findTip prefix (root t);
  let res := IDSet.NewIDSet in
  let res := depthFirst curr n res in
  Ok (IDSet.GetVals res, mx_call CRUnlock t).

End Folded.

(** ** Reference notions used by the statements *)

(** The identifiers stored at a node or below it. *)
Fixpoint subtree_ids (n : TrieNode) : gset ObjectId :=
  IDSet n ∪
  map_fold
    (fun _ (c : ptr) acc =>
       match c with
       | None => acc
       | Some n' => subtree_ids n' ∪ acc
       end)
    ∅ (link n).

(** The identifiers stored at or below what a pointer points to. *)
Definition ids_below (p : ptr) : gset ObjectId :=
  match p with
  | None => ∅
  | Some n => subtree_ids n
  end.

(** The number of nodes of a subtree, the measure for induction on trees. *)
Fixpoint node_count (n : TrieNode) : nat :=
  S (map_fold
       (fun _ (c : ptr) acc =>
          match c with
          | None => acc
          | Some n' => (node_count n' + acc)%nat
          end)
       0%nat (link n)).

(** What a bounded collection pass over the identifiers [src] does to the
    accumulator: it only grows, only by members of [src], never beyond
    [max], and misses a member of [src] only when it is full. *)
Definition collected (max : Z) (src res0 res : gset ObjectId) : Prop :=
  res0 ⊆ res ∧
  res ⊆ res0 ∪ src ∧
  (IDSet.Size res ≤ max ∨ res = res0) ∧
  (IDSet.Size res < max → src ⊆ res).

(** The node reached from [n] along the bytes of [path], if every link on
    the way is present and not [nil]. *)
Fixpoint node_at (n : TrieNode) (path : string) : option TrieNode :=
  match path with
  | EmptyString => Some n
  | String b path' =>
      match link n !! rune_of_byte b with
      | Some (Some c) => node_at c path'
      | _ => None
      end
  end.

(** ** Programs over a trie *)

(** [strings.ToLower] on a string of ASCII bytes: the letters [A]..[Z] are
    moved to [a]..[z], every other byte is kept. *)
Definition lower_byte (b : ascii) : ascii :=
  let c := N_of_ascii b in
  if (65 <=? c)%N && (c <=? 90)%N then ascii_of_N (c + 32) else b.

Fixpoint ToLowerASCII (s : string) : string :=
  match s with
  | EmptyString => EmptyString
  | String b s' => String (lower_byte b) (ToLowerASCII s')
  end.

(** A call of one of the four public methods. *)
Inductive Op : Type :=
  | OpAdd (s : string) (id : ObjectId)
  | OpRemove (prefix : string) (id : ObjectId)
  | OpGet (prefix : string)
  | OpGetMany (prefix : string) (n : Z).

Section Programs.

Variable ToLower : string → string.

Definition step (t : Trie) (o : Op) : result Trie :=
  match o with
  | OpAdd s id => '(_, t') ← Add ToLower s id t; Ok t'
  | OpRemove prefix id => Remove prefix id t
  | OpGet prefix => '(_, t') ← Get ToLower prefix t; Ok t'
  | OpGetMany prefix n => '(_, t') ← GetMany ToLower prefix n t; Ok t'
  end.

(** The state after the calls [ops], made one after the other. *)
Fixpoint run (ops : list Op) (t : Trie) : result Trie :=
  match ops with
  | [] => Ok t
  | o :: ops' => t' ← step t o; run ops' t'
  end.

(** No [Add] of the program has a key that folds to the empty string. *)
Definition adds_nonempty (ops : list Op) : bool :=
  forallb (fun o => match o with
                    | OpAdd s _ => negb (String.eqb (ToLower s) "")
                    | _ => true
                    end) ops.

End Programs.

(** ** Sample data for the worked examples *)

(** The tree with the keys ["a"] (holding [id3]) and ["ab"] (holding [id1]
    and [id2]). *)
Definition sample_node : TrieNode :=
  mkTrieNode
    {[ 97 := Some (mkTrieNode
                     {[ 98 := Some (mkTrieNode ∅ {[ "id1"; "id2" ]}) ]}
                     {[ "id3" ]}) ]}
    ∅.

(** Five identifiers under keys that start with ["ab"], then the two keys
    ["car"] and ["cart"]. *)
Definition sample_ops : list Op :=
  [ OpAdd "ab" "1"; OpAdd "abc" "2"; OpAdd "abd" "3"; OpAdd "ABcd" "4";
    OpAdd "abz" "5"; OpAdd "car" "6"; OpAdd "cart" "7" ].

(** ** Reference notions for the further properties *)

(** The identifiers stored at the end of [path]; none when the path is
    broken. *)
Definition ids_at (n : TrieNode) (path : string) : gset ObjectId :=
  match node_at n path with
  | Some tip => IDSet tip
  | None => ∅
  end.

(** [prefix] is the beginning of [s]. *)
Fixpoint is_prefix (prefix s : string) : bool :=
  match prefix, s with
  | EmptyString, _ => true
  | String a prefix', String b s' => bool_decide (a = b) && is_prefix prefix' s'
  | String _ _, EmptyString => false
  end.

Section Stored.

Variable ToLower : string → string.

(** The index as a table from folded keys to sets of identifiers: what one
    call does to the set kept under [key].  [Add] files its identifier
    under the folded key, [Remove] withdraws it from the key as it is
    spelled, the two queries change nothing. *)
Definition apply_op (key : string) (ids : gset ObjectId) (o : Op)
  : gset ObjectId :=
  match o with
  | OpAdd s id => if decide (ToLower s = key) then {[ id ]} ∪ ids else ids
  | OpRemove prefix id => if decide (prefix = key) then ids ∖ {[ id ]} else ids
  | OpGet _ => ids
  | OpGetMany _ _ => ids
  end.

(** The set kept under [key] after the calls [ops] on an empty table. *)
Definition stored_under (key : string) (ops : list Op) : gset ObjectId :=
  foldl (apply_op key) ∅ ops.

End Stored.

(** The state of a [sync.RWMutex]: whether a writer holds it, and how many
    readers do. *)
Definition MxState : Type := (bool * nat)%type.

(** One call on the mutex by a caller that is alone: [None] when the call
    would block for ever ([Lock] or [RLock] on a mutex held by a writer,
    [Lock] on one held by readers) or is a fatal error of the library
    ([Unlock] or [RUnlock] of a mutex that is not held that way). *)
Definition mx_step (st : MxState) (c : MxCall) : option MxState :=
  match c, st with
  | CLock, (false, O) => Some (true, O)
  | CUnlock, (true, O) => Some (false, O)
  | CRLock, (false, readers) => Some (false, S readers)
  | CRUnlock, (false, S readers) => Some (false, readers)
  | _, _ => None
  end.

(** The state a history of calls leaves a new mutex in. *)
Definition mx_replay (h : RWMutex) : option MxState :=
  foldl (fun st c => st ≫= fun st => mx_step st c) (Some (false, O)) h.

(** Every key of every link map of the tree is the rune of a byte. *)
Inductive byte_keyed : TrieNode → Prop :=
  | byte_keyed_node n :
      (∀ r, is_Some (link n !! r) → ∃ b, r = rune_of_byte b) →
      (∀ r c, link n !! r = Some (Some c) → byte_keyed c) →
      byte_keyed n.

(** * Proofs *)

#[local] Set Warnings "-clear-no-such-hyp".

(** ** Induction on trees *)

Lemma foldr_count_le {A} (f : A → nat) (l : list A) (x : A) :
  x ∈ l → (f x ≤ foldr (fun y acc => f y + acc) 0 l)%nat.
Proof.
  induction 1 as [? l | ? y l _ IH]; simpl; lia.
Qed.

Lemma node_count_child (n c : TrieNode) (r : rune) :
  link n !! r = Some (Some c) → (node_count c < node_count n)%nat.
Proof.
  destruct n as [lk ids]; simpl; intros Hr.
  rewrite map_fold_foldr.
  apply elem_of_map_to_list in Hr.
  pose proof (foldr_count_le
    (fun rc : rune * ptr => match rc.2 with
                            | None => 0 | Some n' => node_count n' end%nat)
    _ _ Hr) as Hle.
  simpl in Hle.
  assert (Heq : ∀ l : list (rune * ptr),
    foldr (fun y acc => (match y.2 with None => 0 | Some n' => node_count n' end + acc)%nat) 0%nat l =
    foldr (uncurry (fun (_ : rune) (c : ptr) acc =>
      match c with None => acc | Some n' => (node_count n' + acc)%nat end)) 0%nat l).
  { induction l as [|[k [c'|]] l IH]; simpl; rewrite ?IH; done. }
  rewrite Heq in Hle. lia.
Qed.

Lemma TrieNode_child_ind (P : TrieNode → Prop) :
  (∀ n, (∀ r c, link n !! r = Some (Some c) → P c) → P n) →
  ∀ n, P n.
Proof.
  intros Hstep n.
  remember (node_count n) as k eqn:Hk.
  revert n Hk. induction k as [k IH] using lt_wf_ind. intros n ->.
  apply Hstep. intros r c Hc.
  eapply IH; [|reflexivity]. by eapply node_count_child.
Qed.

(** ** Bounded collection *)

Lemma cap_is_min (a s lim : Z) :
  a ≤ s → 0 ≤ lim → (a ≤ lim ∨ a = 0) → (a < lim → a = s) →
  a = Z.min lim s.
Proof. lia. Qed.

Lemma collected_refl (max : Z) (res : gset ObjectId) :
  collected max ∅ res res.
Proof. unfold collected. set_solver. Qed.

Lemma collected_trans (max : Z) (s1 s2 res0 res1 res2 : gset ObjectId) :
  collected max s1 res0 res1 →
  collected max s2 res1 res2 →
  collected max (s1 ∪ s2) res0 res2.
Proof.
  unfold collected, IDSet.Size.
  intros (Ha1 & Hb1 & Hc1 & Hd1) (Ha2 & Hb2 & Hc2 & Hd2).
  split_and!.
  - by transitivity res1.
  - intros x Hx. apply Hb2 in Hx. apply elem_of_union in Hx as [Hx|Hx].
    + apply Hb1 in Hx. set_solver.
    + set_solver.
  - destruct Hc2 as [?| ->]; [by left|].
    destruct Hc1 as [?| ->]; [by left|by right].
  - intros Hlt.
    pose proof (subseteq_size res1 res2 Ha2).
    specialize (Hd2 Hlt).
    assert (s1 ⊆ res1).
    { apply Hd1. eapply Z.le_lt_trans; [|exact Hlt].
      apply Nat2Z.inj_le. exact H. }
    apply union_subseteq. split; [by transitivity res1|done].
Qed.

Lemma collected_proper (max : Z) (s1 s2 res0 res : gset ObjectId) :
  s1 = s2 → collected max s1 res0 res → collected max s2 res0 res.
Proof. by intros ->. Qed.

Lemma save_upto_collected (max : Z) (idList : list ObjectId) (res : IDSet.t) :
  collected max (list_to_set idList) res (save_upto max idList res).
Proof.
  unfold save_upto.
  revert res. induction idList as [|id idList IH]; intros res; simpl.
  - apply collected_refl.
  - eapply collected_trans; [|apply IH].
    unfold collected, IDSet.Size, IDSet.SaveVal.
    case_bool_decide as Hlt.
    + split_and!; [set_solver|set_solver| |set_solver].
      left. pose proof (size_union_alt {[id]} res) as Hs.
      pose proof (subseteq_size (res ∖ {[id]}) res ltac:(set_solver)).
      rewrite size_singleton in Hs. unfold IDSet.Size in Hlt. lia.
    + unfold IDSet.Size in Hlt. split_and!; [done|set_solver|by right|lia].
Qed.

(** A pass that starts from the empty accumulator. *)
Lemma collected_from_empty (lim : Z) (src res : gset ObjectId) :
  0 ≤ lim →
  collected lim src ∅ res →
  NoDup (elements res) ∧
  (∀ id, id ∈ elements res → id ∈ src) ∧
  Z.of_nat (length (elements res)) = Z.min lim (Z.of_nat (size src)).
Proof.
  unfold collected, IDSet.Size. intros Hlim (_ & Hsub & Hcap & Hall).
  assert (Hres : res ⊆ src).
  { intros x Hx. apply Hsub, elem_of_union in Hx as [Hx|Hx]; [|done].
    by apply not_elem_of_empty in Hx. }
  split_and!.
  - apply NoDup_elements.
  - intros id Hid. apply elem_of_elements in Hid. by apply Hres.
  - change (length (elements res)) with (size res).
    apply cap_is_min; [|done| |].
    + apply Nat2Z.inj_le, subseteq_size, Hres.
    + destruct Hcap as [Hcap| ->]; [by left|by right].
    + intros Hlt. do 2 f_equal.
      apply set_eq. intros x. split; [apply Hres|apply (Hall Hlt)].
Qed.

Lemma GetAllRunes_map_to_list (n : TrieNode) :
  GetAllRunes n = reverse (map_to_list (link n)).*1.
Proof.
  unfold GetAllRunes. rewrite map_fold_foldr.
  induction (map_to_list (link n)) as [|[k c] l IH]; simpl; [done|].
  by rewrite IH, reverse_cons.
Qed.

Lemma IsLeafNode_true (n : TrieNode) :
  IsLeafNode n = true ↔ link n = ∅.
Proof.
  unfold IsLeafNode.
  rewrite GetAllRunes_map_to_list, Nat.eqb_eq, length_reverse, length_fmap.
  split.
  - intros Hl. apply map_to_list_empty_iff. by apply nil_length_inv.
  - intros ->. by rewrite map_to_list_empty.
Qed.

Lemma subtree_ids_unfold (n : TrieNode) :
  subtree_ids n =
  IDSet n ∪
  foldr (fun (rc : rune * ptr) acc =>
           match rc.2 with None => acc | Some n' => subtree_ids n' ∪ acc end)
        ∅ (map_to_list (link n)).
Proof.
  destruct n as [lk ids]; simpl. f_equal.
  rewrite map_fold_foldr.
  induction (map_to_list lk) as [|[k [c|]] l IH]; simpl; rewrite ?IH; done.
Qed.

Lemma depthFirst_node_unfold (n : TrieNode) (max : Z) (res : IDSet.t) :
  depthFirst_node n max res =
  let children res :=
    foldr (fun (rc : rune * ptr) res => depthFirst rc.2 max res)
          res (map_to_list (link n)) in
  if bool_decide (0 < length (GetVals n))%nat then
    let res := save_upto max (GetVals n) res in
    if IsLeafNode n then res else children res
  else children res.
Proof.
  assert (Hch : ∀ res,
    map_fold (fun (_ : rune) (c : ptr) res =>
      match c with None => res | Some n' => depthFirst_node n' max res end)
      res (link n) =
    foldr (fun (rc : rune * ptr) res => depthFirst rc.2 max res)
      res (map_to_list (link n))).
  { intros res'. rewrite map_fold_foldr.
    induction (map_to_list (link n)) as [|[k [c|]] l IH]; simpl; rewrite ?IH; done. }
  destruct n as [lk ids]; simpl in *.
  by rewrite !Hch.
Qed.

(** The loop of the source, [for _, currentRune := range runes
    { depthFirst(curr.GetLink(currentRune), max, res) }], is the fold over
    the entries of the map that [depthFirst_node] makes. *)
Lemma depthFirst_by_runes (n : TrieNode) (max : Z) (res : IDSet.t) :
  foldl (fun res r => depthFirst (GetLink n r) max res) res (GetAllRunes n) =
  foldr (fun (rc : rune * ptr) res => depthFirst rc.2 max res)
        res (map_to_list (link n)).
Proof.
  rewrite GetAllRunes_map_to_list.
  assert (Hl : ∀ rc, rc ∈ map_to_list (link n) → GetLink n rc.1 = rc.2).
  { intros [r c] Hin. apply elem_of_map_to_list in Hin.
    unfold GetLink; simpl. by rewrite Hin. }
  induction (map_to_list (link n)) as [|rc l IH]; [done|].
  rewrite fmap_cons, reverse_cons, foldl_snoc. simpl.
  rewrite IH, Hl; [done|by left|].
  intros rc' Hin. apply Hl. by right.
Qed.

Lemma children_collected (max : Z) (l : list (rune * ptr)) :
  (∀ r c, (r, Some c) ∈ l →
     ∀ res, collected max (subtree_ids c) res (depthFirst_node c max res)) →
  ∀ res,
    collected max
      (foldr (fun (rc : rune * ptr) acc =>
                match rc.2 with None => acc | Some n' => subtree_ids n' ∪ acc end)
             ∅ l)
      res
      (foldr (fun (rc : rune * ptr) res => depthFirst rc.2 max res) res l).
Proof.
  induction l as [|[r [c|]] l IH]; intros Hl res; simpl.
  - apply collected_refl.
  - eapply collected_proper; [|eapply collected_trans].
    + apply (comm_L (∪)).
    + apply IH. intros r' c' Hin. apply (Hl r' c'). by right.
    + apply (Hl r c). by left.
  - apply IH. intros r' c' Hin. apply (Hl r' c'). by right.
Qed.

Lemma depthFirst_node_collected (max : Z) (n : TrieNode) :
  ∀ res, collected max (subtree_ids n) res (depthFirst_node n max res).
Proof.
  induction n as [n IH] using TrieNode_child_ind. intros res.
  rewrite depthFirst_node_unfold, subtree_ids_unfold. cbv zeta.
  assert (Hch : ∀ res',
    collected max
      (foldr (fun (rc : rune * ptr) acc =>
                match rc.2 with None => acc | Some n' => subtree_ids n' ∪ acc end)
             ∅ (map_to_list (link n)))
      res'
      (foldr (fun (rc : rune * ptr) res => depthFirst rc.2 max res)
             res' (map_to_list (link n)))).
  { apply children_collected. intros r c Hin.
    apply (IH r c). by apply elem_of_map_to_list. }
  assert (Hown : collected max (IDSet n) res (save_upto max (GetVals n) res)).
  { eapply collected_proper; [|apply save_upto_collected].
    unfold GetVals, IDSet.GetVals. apply list_to_set_elements_L. }
  case_bool_decide as Hlen.
  - destruct (IsLeafNode n) eqn:Hleaf.
    + apply IsLeafNode_true in Hleaf. rewrite Hleaf, map_to_list_empty. simpl.
      eapply collected_proper; [|exact Hown]. set_solver.
    + eapply collected_trans; [exact Hown|apply Hch].
  - assert (IDSet n = ∅) as ->.
    { unfold GetVals, IDSet.GetVals in Hlen.
      apply leibniz_equiv, elements_empty_iff.
      destruct (elements (IDSet n)); [done|simpl in Hlen; lia]. }
    eapply collected_proper; [|apply Hch]. set_solver.
Qed.

(** ** Walking and building paths *)

Lemma GetLink_lookup (n : TrieNode) (r : rune) :
  GetLink n r = match link n !! r with Some (Some c) => Some c | _ => None end.
Proof. unfold GetLink. by destruct (link n !! r) as [[c|]|]. Qed.

Lemma findTip_node_at (s : string) (n : TrieNode) :
  findTip s (Some n) = Ok (node_at n s).
Proof.
  revert n. induction s as [|b s IH]; intros n; simpl; [done|].
  rewrite GetLink_lookup.
  destruct (link n !! rune_of_byte b) as [[c|]|]; simpl; auto.
Qed.

Lemma PutLink_PutLink (n : TrieNode) (r : rune) (l1 l2 : ptr) :
  PutLink (PutLink n r l1) r l2 = PutLink n r l2.
Proof. unfold PutLink; simpl. by rewrite insert_insert_eq. Qed.

Lemma PutLink_id (n : TrieNode) (r : rune) (c : TrieNode) :
  link n !! r = Some (Some c) → PutLink n r (Some c) = n.
Proof.
  intros Hr. destruct n as [lk ids]; unfold PutLink; simpl in *.
  by rewrite insert_id.
Qed.

Lemma GetLink_PutLink (n : TrieNode) (r : rune) (l : ptr) :
  GetLink (PutLink n r l) r = l.
Proof. unfold GetLink, PutLink; simpl. by rewrite lookup_insert_eq. Qed.

Lemma lookup_PutLink (n : TrieNode) (r : rune) (l : ptr) :
  link (PutLink n r l) !! r = Some l.
Proof. unfold PutLink; simpl. by rewrite lookup_insert_eq. Qed.

Lemma elem_of_GetVals (n : TrieNode) (id : ObjectId) :
  id ∈ GetVals n ↔ id ∈ IDSet n.
Proof. unfold GetVals, IDSet.GetVals. apply elem_of_elements. Qed.

Lemma NoDup_GetVals (n : TrieNode) : NoDup (GetVals n).
Proof. unfold GetVals, IDSet.GetVals. apply NoDup_elements. Qed.

Lemma ContainsVal_SaveVal (n : TrieNode) (id : ObjectId) :
  ContainsVal (SaveVal n id) id = true.
Proof.
  unfold ContainsVal, SaveVal, IDSet.ContainsVal, IDSet.SaveVal; simpl.
  apply bool_decide_eq_true. set_solver.
Qed.

(** What the loop of [Add] does from a node that is not [nil]: it never
    panics, ends on the node at the end of the path, which holds [id], keeps
    the identifiers of the start node when the path is not empty and adds
    [id] to them when it is, and doing it again changes nothing. *)
Lemma add_loop_spec (s : string) (id : ObjectId) (n : TrieNode) :
  ∃ n' tip,
    add_loop s id (Some n) = Ok (n', Some tip) ∧
    node_at n' s = Some tip ∧
    id ∈ IDSet tip ∧
    (s ≠ EmptyString → IDSet n' = IDSet n) ∧
    (s = EmptyString → IDSet n' = {[ id ]} ∪ IDSet n) ∧
    add_loop s id (Some n') = Ok (n', Some tip).
Proof.
  revert n. induction s as [|b s IH]; intros n.
  - simpl. destruct (ContainsVal n id) eqn:Hc; simpl.
    + assert (id ∈ IDSet n).
      { unfold ContainsVal, IDSet.ContainsVal in Hc.
        by apply bool_decide_eq_true in Hc. }
      exists n, n. rewrite Hc. simpl. split_and!; try done.
      intros _. set_solver.
    + exists (SaveVal n id), (SaveVal n id).
      rewrite ContainsVal_SaveVal. simpl. split_and!; try done.
      unfold IDSet.SaveVal. set_solver.
  - simpl. destruct (GetLink n (rune_of_byte b)) as [c|] eqn:Hl.
    + destruct (IH c) as (c' & tip & Hrun & Hat & Hin & _ & _ & Hagain).
      rewrite Hrun. simpl.
      exists (PutLink n (rune_of_byte b) (Some c')), tip.
      split_and!; try done.
      * by rewrite lookup_PutLink.
      * rewrite !GetLink_PutLink, Hagain. simpl. by rewrite PutLink_PutLink.
    + destruct (IH NewTrieNode) as (c' & tip & Hrun & Hat & Hin & _ & _ & Hagain).
      rewrite Hrun. simpl. rewrite PutLink_PutLink.
      exists (PutLink n (rune_of_byte b) (Some c')), tip.
      split_and!; try done.
      * by rewrite lookup_PutLink.
      * rewrite !GetLink_PutLink, Hagain. simpl. by rewrite PutLink_PutLink.
Qed.

(** ** Any order of enumeration *)

Lemma elem_of_subtree_ids (n : TrieNode) (x : ObjectId) :
  x ∈ subtree_ids n ↔
  x ∈ IDSet n ∨ ∃ r c, link n !! r = Some (Some c) ∧ x ∈ subtree_ids c.
Proof.
  rewrite subtree_ids_unfold, elem_of_union.
  assert (Hl : ∀ l : list (rune * ptr),
    x ∈ foldr (fun (rc : rune * ptr) acc =>
                 match rc.2 with None => acc | Some n' => subtree_ids n' ∪ acc end)
              (∅ : gset ObjectId) l ↔
    ∃ r c, (r, Some c) ∈ l ∧ x ∈ subtree_ids c).
  { induction l as [|[r [c|]] l IH]; simpl.
    - split; [by intros ?%not_elem_of_empty|].
      by intros (r & c & ?%not_elem_of_nil & _).
    - rewrite elem_of_union, IH. split.
      + intros [Hx|(r' & c' & Hin & Hx)].
        * exists r, c. split; [by left|done].
        * exists r', c'. split; [by right|done].
      + intros (r' & c' & Hin & Hx).
        apply elem_of_cons in Hin as [Heq|Hin].
        * left. by simplify_eq.
        * right. by exists r', c'.
    - rewrite IH. split.
      + intros (r' & c' & Hin & Hx). exists r', c'. split; [by right|done].
      + intros (r' & c' & Hin & Hx).
        apply elem_of_cons in Hin as [Heq|Hin]; [done|].
        by exists r', c'. }
  rewrite Hl. by setoid_rewrite elem_of_map_to_list.
Qed.

Lemma elem_of_GetAllRunes (n : TrieNode) (r : rune) :
  r ∈ GetAllRunes n ↔ is_Some (link n !! r).
Proof.
  rewrite GetAllRunes_map_to_list, elem_of_reverse, list_elem_of_fmap.
  split.
  - intros ([r' c] & -> & Hin). apply elem_of_map_to_list in Hin.
    simpl. by rewrite Hin.
  - intros [c Hc]. exists (r, c). split; [done|].
    by apply elem_of_map_to_list.
Qed.

Lemma elem_of_ids_below_runes (n : TrieNode) (runes : list rune) (x : ObjectId) :
  runes ≡ₚ GetAllRunes n →
  x ∈ ⋃ ((fun r => ids_below (GetLink n r)) <$> runes) ↔
  ∃ r c, link n !! r = Some (Some c) ∧ x ∈ subtree_ids c.
Proof.
  intros Hperm. rewrite elem_of_union_list. split.
  - intros (X & HX & Hx). apply list_elem_of_fmap in HX as (r & -> & Hr).
    rewrite GetLink_lookup in Hx.
    destruct (link n !! r) as [[c|]|] eqn:Hl; simpl in Hx;
      try by apply not_elem_of_empty in Hx.
    by exists r, c.
  - intros (r & c & Hl & Hx). exists (ids_below (GetLink n r)). split.
    + apply list_elem_of_fmap. exists r. split; [done|].
      rewrite Hperm. apply elem_of_GetAllRunes. by rewrite Hl.
    + unfold GetLink. by rewrite Hl.
Qed.

Lemma list_to_set_GetVals (n : TrieNode) (idList : list ObjectId) :
  idList ≡ₚ GetVals n → list_to_set idList = IDSet n.
Proof.
  intros Hperm. apply set_eq. intros x.
  rewrite elem_of_list_to_set, Hperm. apply elem_of_GetVals.
Qed.

(** Whatever the order of enumeration, a run of [depthFirst] is a bounded
    collection pass over the identifiers at or below its argument. *)
Lemma DepthFirst_collected (max : Z) (curr : ptr) (res res' : IDSet.t) :
  DepthFirst max curr res res' →
  collected max (ids_below curr) res res'.
Proof.
  revert curr res res'.
  apply (DepthFirst_run_ind max
    (fun curr res res' => collected max (ids_below curr) res res')
    (fun n runes res res' =>
       collected max (⋃ ((fun r => ids_below (GetLink n r)) <$> runes))
                 res res')).
  - intros res. apply collected_refl.
  - intros n idList res Hvals _ Hleaf. simpl.
    eapply collected_proper; [|apply save_upto_collected].
    rewrite (list_to_set_GetVals n) by done.
    apply IsLeafNode_true in Hleaf.
    apply set_eq. intros x. rewrite elem_of_subtree_ids. split; [by left|].
    intros [Hx|(r & c & Hl & _)]; [done|].
    by rewrite Hleaf, lookup_empty in Hl.
  - intros n runes idList res res' Hrunes Hvals _ _ _ IH. simpl.
    eapply collected_proper; [|eapply collected_trans;
      [apply save_upto_collected|exact IH]].
    rewrite (list_to_set_GetVals n) by done.
    apply set_eq. intros x.
    by rewrite elem_of_union, elem_of_subtree_ids, elem_of_ids_below_runes.
  - intros n runes res res' Hrunes Hlen _ IH. simpl.
    eapply collected_proper; [|exact IH].
    apply set_eq. intros x.
    rewrite elem_of_subtree_ids, elem_of_ids_below_runes by done.
    split; [by right|]. intros [Hx|Hx]; [|done].
    apply elem_of_GetVals in Hx.
    destruct (GetVals n); [by apply not_elem_of_nil in Hx|done].
  - intros n res. apply collected_refl.
  - intros n r runes res res' res'' _ IH1 _ IH2. simpl.
    eapply collected_trans; [exact IH1|exact IH2].
Qed.

(** The function [depthFirst] is one of the runs. *)
Lemma depthFirst_is_a_run (max : Z) (n : TrieNode) :
  ∀ res, DepthFirst max (Some n) res (depthFirst_node n max res).
Proof.
  induction n as [n IH] using TrieNode_child_ind. intros res.
  assert (Hchild : ∀ r res,
    DepthFirst max (GetLink n r) res (depthFirst (GetLink n r) max res)).
  { intros r res0. rewrite GetLink_lookup.
    destruct (link n !! r) as [[c|]|] eqn:Hl; simpl;
      [by eapply IH|apply DepthFirst_nil..]. }
  assert (Hrange : ∀ runes res,
    DepthFirst_range max n runes res
      (foldl (fun res r => depthFirst (GetLink n r) max res) res runes)).
  { induction runes as [|r runes IHr]; intros res0; simpl.
    - apply DepthFirst_range_nil.
    - eapply DepthFirst_range_cons; [apply Hchild|apply IHr]. }
  rewrite depthFirst_node_unfold. cbv beta zeta.
  rewrite <- !depthFirst_by_runes.
  case_bool_decide as Hlen.
  - destruct (IsLeafNode n) eqn:Hleaf.
    + by apply DepthFirst_leaf.
    + by eapply DepthFirst_values.
  - eapply DepthFirst_no_values; [done| |apply Hrange]. lia.
Qed.

(** ** Removing along a path *)

(** [removeHelper] from a node that is not [nil] never panics; it leaves the
    identifiers of the start node alone when the path is not empty, and an
    empty identifier set stays empty. *)
Lemma removeHelper_spec (s : string) (id : ObjectId) (n : TrieNode) :
  ∃ b n',
    removeHelper (Some n) s id = Ok (b, n') ∧
    (s ≠ EmptyString → IDSet n' = IDSet n) ∧
    (IDSet n = ∅ → IDSet n' = ∅).
Proof.
  revert n. induction s as [|b s IH]; intros n; simpl.
  - destruct (ContainsVal n id) eqn:Hc; simpl.
    + destruct (_ && _); eexists _, _; (split_and!; [done|done|]);
        simpl; unfold IDSet.Remove; intros ->; set_solver.
    + by exists false, n.
  - destruct (GetLink n (rune_of_byte b)) as [c|] eqn:Hl.
    + destruct (IH c) as (d & c' & -> & _). simpl.
      destruct d; eexists _, _; by split_and!.
    + by exists false, n.
Qed.

(** Nothing to remove: the path of [s] is broken, or its end does not hold
    [id].  The tree is returned as it was, with no request to unlink. *)
Lemma removeHelper_absent (s : string) (id : ObjectId) (n : TrieNode) :
  match node_at n s with
  | None => True
  | Some tip => id ∉ IDSet tip
  end →
  removeHelper (Some n) s id = Ok (false, n).
Proof.
  revert n. induction s as [|b s IH]; intros n; simpl.
  - intros Hid. unfold ContainsVal, IDSet.ContainsVal.
    by rewrite bool_decide_eq_false_2.
  - rewrite GetLink_lookup.
    destruct (link n !! rune_of_byte b) as [[c|]|] eqn:Hl; try done.
    intros Hat. rewrite (IH c Hat). simpl. by rewrite PutLink_id.
Qed.

(** After [removeHelper], the end of the path, if it is still linked, does
    not hold [id]. *)
Lemma removeHelper_removes (s : string) (id : ObjectId) (n : TrieNode) :
  ∃ b n',
    removeHelper (Some n) s id = Ok (b, n') ∧
    match node_at n' s with
    | None => True
    | Some tip => id ∉ IDSet tip
    end.
Proof.
  revert n. induction s as [|b s IH]; intros n; simpl.
  - unfold ContainsVal, IDSet.ContainsVal. case_bool_decide as Hc; simpl.
    + destruct (_ && _); eexists _, _; (split; [done|]);
        simpl; unfold IDSet.Remove; set_solver.
    + by exists false, n.
  - rewrite GetLink_lookup.
    destruct (link n !! rune_of_byte b) as [[c|]|] eqn:Hl.
    + destruct (IH c) as (d & c' & -> & Hat). simpl.
      destruct d; eexists _, _; (split; [done|]); simpl.
      * by rewrite insert_insert_eq, lookup_insert_eq.
      * by rewrite lookup_insert_eq.
    + exists false, n. by rewrite Hl.
    + exists false, n. by rewrite Hl.
Qed.

(** ** The four methods on a trie whose root is not [nil] *)

Section Methods.

Variable ToLower : string → string.

Lemma Add_spec (n : TrieNode) (m : RWMutex) (s : string) (id : ObjectId) :
  ∃ n' tip,
    Add ToLower s id (mkTrie (Some n) m) =
      Ok (Some tip, mkTrie (Some n') (m ++ [CLock; CUnlock])) ∧
    node_at n' (ToLower s) = Some tip ∧
    id ∈ IDSet tip ∧
    (ToLower s ≠ EmptyString → IDSet n' = IDSet n) ∧
    (ToLower s = EmptyString → IDSet n' = {[ id ]} ∪ IDSet n) ∧
    ∀ m', Add ToLower s id (mkTrie (Some n') m') =
            Ok (Some tip, mkTrie (Some n') (m' ++ [CLock; CUnlock])).
Proof.
  destruct (add_loop_spec (ToLower s) id n)
    as (n' & tip & Hrun & Hat & Hin & Hids & Hroot & Hagain).
  exists n', tip. split_and!; try done.
  - unfold Add; simpl. rewrite Hrun; simpl.
    unfold mx_call, set_root; simpl. by rewrite <- app_assoc.
  - intros m'. unfold Add; simpl. rewrite Hagain; simpl.
    unfold mx_call, set_root; simpl. by rewrite <- app_assoc.
Qed.

Lemma Get_spec (n : TrieNode) (m : RWMutex) (prefix : string) :
  Get ToLower prefix (mkTrie (Some n) m) =
    Ok (match node_at n (ToLower prefix) with
        | Some tip => GetVals tip
        | None => []
        end,
        mkTrie (Some n) (m ++ [CRLock; CRUnlock])).
Proof.
  unfold Get; simpl. rewrite findTip_node_at; simpl.
  unfold mx_call; simpl. rewrite <- app_assoc; simpl.
  destruct (node_at n (ToLower prefix)) as [tip|]; [|done].
  by destruct (GetVals tip).
Qed.

Lemma GetMany_spec (n : TrieNode) (m : RWMutex) (prefix : string) (lim : Z) :
  GetMany ToLower prefix lim (mkTrie (Some n) m) =
    Ok (elements (depthFirst (node_at n (ToLower prefix)) lim ∅),
        mkTrie (Some n) (m ++ [CRLock; CRUnlock])).
Proof.
  unfold GetMany; simpl. rewrite findTip_node_at; simpl.
  unfold mx_call; simpl. by rewrite <- app_assoc.
Qed.

Lemma Remove_spec (n : TrieNode) (m : RWMutex) (prefix : string) (id : ObjectId) :
  ∃ n',
    Remove prefix id (mkTrie (Some n) m) = Ok (mkTrie (Some n') m) ∧
    (IDSet n = ∅ → IDSet n' = ∅).
Proof.
  destruct (removeHelper_spec prefix id n) as (b & n' & Hrun & _ & Hids).
  exists n'. split; [|done].
  unfold Remove; simpl. by rewrite Hrun.
Qed.

(** One call keeps the root away from [nil], and keeps its identifier set
    empty unless it is an [Add] whose key folds to the empty string. *)
Lemma step_spec (o : Op) (t : Trie) (n : TrieNode) :
  root t = Some n →
  ∃ t' n',
    step ToLower t o = Ok t' ∧ root t' = Some n' ∧
    (adds_nonempty ToLower [o] = true → IDSet n = ∅ → IDSet n' = ∅).
Proof.
  destruct t as [r m]; simpl; intros ->.
  destruct o as [s id|p id|p|p lim]; simpl.
  - destruct (Add_spec n m s id) as (n' & tip & -> & _ & _ & Hids & _ & _). simpl.
    eexists _, n'. split_and!; try done.
    rewrite andb_true_r, negb_true_iff. intros Hne%String.eqb_neq.
    intros <-. by apply Hids.
  - destruct (Remove_spec n m p id) as (n' & -> & Hids).
    by eexists _, n'.
  - rewrite Get_spec. simpl. by eexists _, n.
  - rewrite GetMany_spec. simpl. by eexists _, n.
Qed.

Lemma run_spec (ops : list Op) (t : Trie) (n : TrieNode) :
  root t = Some n →
  ∃ t' n',
    run ToLower ops t = Ok t' ∧ root t' = Some n' ∧
    (adds_nonempty ToLower ops = true → IDSet n = ∅ → IDSet n' = ∅).
Proof.
  revert t n. induction ops as [|o ops IH]; intros t n Hroot; simpl.
  - by exists t, n.
  - destruct (step_spec o t n Hroot) as (t1 & n1 & -> & Hroot1 & Hids1). simpl.
    destruct (IH t1 n1 Hroot1) as (t2 & n2 & Hrun & Hroot2 & Hids2).
    exists t2, n2. split_and!; try done.
    intros [Ho Hops]%andb_true_iff Hempty.
    apply Hids2; [done|]. apply Hids1; [|done].
    simpl. by rewrite Ho.
Qed.

End Methods.

(** * The properties of the design document *)

(** C1 (the code at the failing input).  On a new trie, [Add("ab", id1)]
    followed by [Remove("ab", id1)] leaves [Get("ab")] empty, but the path is
    not pruned back: the node of ["a"] holds no identifier and no child, only
    the key [b] mapped to [nil], and is still linked from the root.
    [RemoveLink] keeps the key, so [IsLeafNode] answers false on that node
    and [removeHelper] never asks the root to unlink it. *)
Theorem Remove_keeps_dead_node :
  ∃ tip t1 t2 t3,
    Add ToLowerASCII "ab" "id1" NewTrie = Ok (tip, t1) ∧
    Remove "ab" "id1" t1 = Ok t2 ∧
    Get ToLowerASCII "ab" t2 = Ok ([], t3) ∧
    root t2 =
      Some (mkTrieNode {[ 97 := Some (mkTrieNode {[ 98 := None ]} ∅) ]} ∅) ∧
    IsLeafNode (mkTrieNode {[ 98 := None ]} ∅) = false.
Proof.
  eexists _, _, _, _. split_and!.
  - vm_compute. reflexivity.
  - vm_compute. reflexivity.
  - vm_compute. reflexivity.
  - vm_compute. reflexivity.
  - vm_compute. reflexivity.
Qed.

(** The reason behind C1, for every tree: a node that has just had a child
    unlinked still has the key of that child, so it is never a leaf and
    [removeHelper] on a path that is not empty never returns true. *)
Lemma IsLeafNode_RemoveLink (n : TrieNode) (r : rune) :
  IsLeafNode (RemoveLink n r) = false.
Proof.
  apply not_true_is_false. rewrite IsLeafNode_true. simpl.
  apply insert_non_empty.
Qed.

Lemma removeHelper_no_propagation
    (n : TrieNode) (b : ascii) (s : string) (id : ObjectId) :
  ∃ n', removeHelper (Some n) (String b s) id = Ok (false, n').
Proof.
  simpl. destruct (GetLink n (rune_of_byte b)) as [c|] eqn:Hl.
  - destruct (removeHelper_spec s id c) as (d & c' & -> & _). simpl.
    destruct d; [|by eexists].
    rewrite IsLeafNode_RemoveLink. by eexists.
  - by eexists.
Qed.

(** C2 (the code at the failing input).  [Add] and [Get] fold the case of
    the key: after [Add("Foo", id1)] on a new trie both [Get("foo")] and
    [Get("FOO")] return [id1].  [Remove] does not: [Remove("FOO", id1)], and
    even [Remove("Foo", id1)], walk the bytes as they are spelled, find no
    child for [F] and change nothing, so [Get("foo")] still returns [id1]. *)
Theorem Remove_does_not_fold_case :
  ∃ tip t1 t2 t3 t4 t5 t6,
    Add ToLowerASCII "Foo" "id1" NewTrie = Ok (tip, t1) ∧
    Get ToLowerASCII "foo" t1 = Ok (["id1"], t2) ∧
    Get ToLowerASCII "FOO" t1 = Ok (["id1"], t3) ∧
    Remove "FOO" "id1" t1 = Ok t4 ∧ root t4 = root t1 ∧
    Remove "Foo" "id1" t1 = Ok t5 ∧ root t5 = root t1 ∧
    Get ToLowerASCII "foo" t4 = Ok (["id1"], t6).
Proof.
  eexists _, _, _, _, _, _, _.
  split_and!; vm_compute; reflexivity.
Qed.

(** C3 (counterexample).  [Add] with the empty key on a new trie stores the
    identifier in the root's own set. *)
Lemma empty_key_is_stored_at_root :
  ∃ t n,
    run ToLowerASCII [OpAdd "" "id1"] NewTrie = Ok t ∧
    root t = Some n ∧
    GetVals n = ["id1"] ∧
    IDSet n ≠ ∅.
Proof.
  eexists _, _. split_and!; try (vm_compute; reflexivity).
  vm_compute. discriminate.
Qed.

Section Properties.

Variable ToLower : string → string.

(** C3 (amended).  In every state reached from a new trie by calls of the
    four methods in which no [Add] has a key that folds to the empty
    string, the root is there and its identifier set is empty; an [Add]
    whose key folds to the empty string then stores its identifier in the
    root's own set. *)
Theorem root_holds_no_identifier (ops : list Op) (k : string) (id : ObjectId) :
  adds_nonempty ToLower ops = true →
  ToLower k = EmptyString →
  ∃ t n tip t' n',
    run ToLower ops NewTrie = Ok t ∧ root t = Some n ∧ IDSet n = ∅ ∧
    Add ToLower k id t = Ok (tip, t') ∧ root t' = Some n' ∧
    IDSet n' = {[ id ]}.
Proof.
  intros Hops Hk.
  destruct (run_spec ToLower ops NewTrie NewTrieNode eq_refl)
    as ([r m] & n & Hrun & Hroot & Hids).
  simpl in Hroot. subst r.
  destruct (Add_spec ToLower n m k id) as (n' & tip & HAdd & _ & _ & _ & Hk' & _).
  eexists (mkTrie (Some n) m), n, (Some tip), _, n'.
  split_and!; [done|done|by apply Hids|exact HAdd|done|].
  rewrite (Hk' Hk), (Hids Hops eq_refl). set_solver.
Qed.

(** C4.  For a limit [lim >= 0], [GetMany(p, lim)] returns the empty
    sequence when the path of the folded prefix does not exist; otherwise
    a sequence without duplicates, of identifiers stored at the node of
    the prefix or below it, whose length is the smaller of [lim] and the
    number of distinct identifiers stored there. *)
Theorem GetMany_bounded
    (n : TrieNode) (m : RWMutex) (p : string) (lim : Z) :
  0 ≤ lim →
  ∃ ids t',
    GetMany ToLower p lim (mkTrie (Some n) m) = Ok (ids, t') ∧
    match node_at n (ToLower p) with
    | None => ids = []
    | Some tip =>
        NoDup ids ∧
        (∀ id, id ∈ ids → id ∈ subtree_ids tip) ∧
        Z.of_nat (length ids) = Z.min lim (Z.of_nat (size (subtree_ids tip)))
    end.
Proof.
  intros Hlim. rewrite GetMany_spec. eexists _, _. split; [done|].
  destruct (node_at n (ToLower p)) as [tip|]; simpl; [|apply elements_empty].
  apply collected_from_empty; [done|].
  apply depthFirst_node_collected.
Qed.

(** C5.  [Get(k)] returns the empty sequence when the path of the folded
    key does not fully exist; otherwise exactly the identifiers of the
    node at the end of the path, and so none that is stored only below. *)
Theorem Get_exact_match (n : TrieNode) (m : RWMutex) (k : string) :
  ∃ ids t',
    Get ToLower k (mkTrie (Some n) m) = Ok (ids, t') ∧
    match node_at n (ToLower k) with
    | None => ids = []
    | Some tip => ids = GetVals tip ∧ ∀ id, id ∈ ids ↔ id ∈ IDSet tip
    end.
Proof.
  rewrite Get_spec. eexists _, _. split; [done|].
  destruct (node_at n (ToLower k)) as [tip|]; [|done].
  split; [done|]. intros id. apply elem_of_GetVals.
Qed.

(** C6.  [Add(k, id)] followed by [Get(k)] returns a sequence that
    includes [id]. *)
Theorem Add_then_Get
    (n : TrieNode) (m : RWMutex) (k : string) (id : ObjectId) :
  ∃ tip t1 ids t2,
    Add ToLower k id (mkTrie (Some n) m) = Ok (tip, t1) ∧
    Get ToLower k t1 = Ok (ids, t2) ∧
    id ∈ ids.
Proof.
  destruct (Add_spec ToLower n m k id) as (n' & tip & HAdd & Hat & Hin & _).
  eexists _, _, _, _. split; [exact HAdd|].
  rewrite Get_spec, Hat. split; [done|].
  by apply elem_of_GetVals.
Qed.

(** C7.  A second [Add(k, id)] leaves the tree as the first one left it:
    it ends on the same node with the same identifier set, of the same
    size, and [Get(k)] returns the same sequence, which holds [id] and has
    no duplicate. *)
Theorem Add_idempotent
    (n : TrieNode) (m : RWMutex) (k : string) (id : ObjectId) :
  ∃ tip1 t1 tip2 t2 ids t3 t4,
    Add ToLower k id (mkTrie (Some n) m) = Ok (Some tip1, t1) ∧
    Add ToLower k id t1 = Ok (Some tip2, t2) ∧
    root t2 = root t1 ∧
    tip2 = tip1 ∧
    IDSet.Size (IDSet tip2) = IDSet.Size (IDSet tip1) ∧
    Get ToLower k t1 = Ok (ids, t3) ∧
    Get ToLower k t2 = Ok (ids, t4) ∧
    id ∈ ids ∧ NoDup ids.
Proof.
  destruct (Add_spec ToLower n m k id)
    as (n' & tip & HAdd & Hat & Hin & _ & Hagain).
  eexists tip, _, tip, _, _, _, _.
  split; [exact HAdd|]. split; [apply Hagain|].
  rewrite !Get_spec, Hat. split_and!; try done.
  - by apply elem_of_GetVals.
  - apply NoDup_GetVals.
Qed.

(** C8.  When the path that [Remove(p, id)] walks does not fully exist, or
    the node at its end does not hold [id], the call returns without a
    panic and the trie is what it was: same nodes, same links, same
    identifier sets. *)
Theorem Remove_absent_is_noop
    (n : TrieNode) (m : RWMutex) (p : string) (id : ObjectId) :
  node_at n p = None ∨ (∃ tip, node_at n p = Some tip ∧ id ∉ IDSet tip) →
  Remove p id (mkTrie (Some n) m) = Ok (mkTrie (Some n) m).
Proof.
  intros Habs. unfold Remove; simpl.
  rewrite removeHelper_absent; [done|].
  by destruct Habs as [->|(tip & -> & Hid)].
Qed.

(** C9 (the code on every input).  [Add] calls [Lock] and then [Unlock] on
    the mutex of the trie; [Remove] changes the tree and makes no call on
    the mutex at all. *)
Theorem Remove_makes_no_mutex_call
    (n : TrieNode) (m : RWMutex) (k : string) (id : ObjectId) :
  (∃ tip n1, Add ToLower k id (mkTrie (Some n) m) =
               Ok (tip, mkTrie (Some n1) (m ++ [CLock; CUnlock]))) ∧
  (∃ n2, Remove k id (mkTrie (Some n) m) = Ok (mkTrie (Some n2) m)).
Proof.
  split.
  - destruct (Add_spec ToLower n m k id) as (n' & tip & HAdd & _).
    by eexists _, _.
  - destruct (Remove_spec n m k id) as (n' & HRemove & _).
    by eexists.
Qed.

(** C10.  After any sequence of calls on a new trie, [Get] and [GetMany]
    return without dereferencing [nil].  [RemoveLink] leaves its key in
    the map, mapped to [nil]; [findTip] answers [nil] when it meets such a
    link, and [depthFirst] returns its accumulator when it is passed one. *)
Theorem reads_never_dereference_nil
    (ops : list Op) (k p : string) (lim : Z) :
  (∃ t ids1 t1 ids2 t2,
     run ToLower ops NewTrie = Ok t ∧
     Get ToLower k t = Ok (ids1, t1) ∧
     GetMany ToLower p lim t = Ok (ids2, t2)) ∧
  (∀ n r, link (RemoveLink n r) !! r = Some None) ∧
  (∀ n b s,
     findTip (String b s) (Some (RemoveLink n (rune_of_byte b))) = Ok None) ∧
  (∀ n r max res, depthFirst (GetLink (RemoveLink n r) r) max res = res).
Proof.
  split_and!.
  - destruct (run_spec ToLower ops NewTrie NewTrieNode eq_refl)
      as ([r m] & n & Hrun & Hroot & _).
    simpl in Hroot. subst r.
    eexists _, _, _, _, _. split; [exact Hrun|].
    by rewrite Get_spec, GetMany_spec.
  - intros n r. simpl. apply lookup_insert_eq.
  - intros n b s. simpl.
    unfold GetLink, RemoveLink; simpl. by rewrite lookup_insert_eq.
  - intros n r max res.
    unfold GetLink, RemoveLink; simpl. by rewrite lookup_insert_eq.
Qed.

(** The part of C2 that the code does keep: two spellings with the same
    folded form address the same node for [Add] and [Get]. *)
Lemma Add_then_Get_folded
    (n : TrieNode) (m : RWMutex) (k1 k2 : string) (id : ObjectId) :
  ToLower k1 = ToLower k2 →
  ∃ tip t1 ids t2,
    Add ToLower k1 id (mkTrie (Some n) m) = Ok (tip, t1) ∧
    Get ToLower k2 t1 = Ok (ids, t2) ∧
    id ∈ ids.
Proof.
  intros Hk.
  destruct (Add_spec ToLower n m k1 id) as (n' & tip & HAdd & Hat & Hin & _).
  eexists _, _, _, _. split; [exact HAdd|].
  rewrite Get_spec, <- Hk, Hat. split; [done|].
  by apply elem_of_GetVals.
Qed.

(** The part of C1 that the code does keep, for a key that is spelled as
    it folds: after [Remove(k, id)], [Get(k)] does not return [id]. *)
Lemma Remove_then_Get_folded
    (n : TrieNode) (m : RWMutex) (k : string) (id : ObjectId) :
  ToLower k = k →
  ∃ t1 ids t2,
    Remove k id (mkTrie (Some n) m) = Ok t1 ∧
    Get ToLower k t1 = Ok (ids, t2) ∧
    id ∉ ids.
Proof.
  intros Hk.
  destruct (removeHelper_removes k id n) as (b & n' & Hrun & Hat).
  eexists _, _, _. split.
  { unfold Remove; simpl. rewrite Hrun. done. }
  unfold set_root; simpl. rewrite Get_spec, Hk. split; [done|].
  destruct (node_at n' k) as [tip|]; [|by apply not_elem_of_nil].
  by rewrite elem_of_GetVals.
Qed.

(** C4 for every order of enumeration: the three properties hold of the
    result of any run of [depthFirst] from the node of the folded prefix,
    listed in any order. *)
Lemma GetMany_bounded_any_order
    (n : TrieNode) (p : string) (lim : Z) (res : IDSet.t) (ids : list ObjectId) :
  0 ≤ lim →
  DepthFirst lim (node_at n (ToLower p)) ∅ res →
  ids ≡ₚ elements res →
  match node_at n (ToLower p) with
  | None => ids = []
  | Some tip =>
      NoDup ids ∧
      (∀ id, id ∈ ids → id ∈ subtree_ids tip) ∧
      Z.of_nat (length ids) = Z.min lim (Z.of_nat (size (subtree_ids tip)))
  end.
Proof.
  intros Hlim Hrun Hids.
  destruct (node_at n (ToLower p)) as [tip|].
  - apply DepthFirst_collected, collected_from_empty in Hrun
      as (Hnd & Hsub & Hlen); [|done].
    rewrite Hids. split_and!; [done| |done].
    intros id. rewrite Hids. apply Hsub.
  - inversion Hrun; subst. rewrite elements_empty in Hids.
    by apply Permutation_nil_r.
Qed.

End Properties.

(** ** Instances and worked examples *)

Lemma root_holds_no_identifier_witness :
  adds_nonempty ToLowerASCII sample_ops = true ∧
  ToLowerASCII "" = EmptyString ∧
  ∃ t n tip t' n',
    run ToLowerASCII sample_ops NewTrie = Ok t ∧ root t = Some n ∧
    IDSet n = ∅ ∧
    Add ToLowerASCII "" "8" t = Ok (tip, t') ∧ root t' = Some n' ∧
    IDSet n' = {[ "8" ]}.
Proof.
  split; [reflexivity|]. split; [reflexivity|].
  apply (root_holds_no_identifier ToLowerASCII sample_ops "" "8");
    reflexivity.
Defined.

Lemma GetMany_bounded_witness :
  0 ≤ 2 ∧
  ∃ ids t',
    GetMany ToLowerASCII "A" 2 (mkTrie (Some sample_node) []) = Ok (ids, t') ∧
    match node_at sample_node (ToLowerASCII "A") with
    | None => ids = []
    | Some tip =>
        NoDup ids ∧
        (∀ id, id ∈ ids → id ∈ subtree_ids tip) ∧
        Z.of_nat (length ids) = Z.min 2 (Z.of_nat (size (subtree_ids tip)))
    end.
Proof.
  split; [lia|].
  apply (GetMany_bounded ToLowerASCII sample_node [] "A" 2). lia.
Defined.

Lemma Remove_absent_is_noop_witness :
  (node_at sample_node "ab" = None ∨
   ∃ tip, node_at sample_node "ab" = Some tip ∧ "id3" ∉ IDSet tip) ∧
  Remove "ab" "id3" (mkTrie (Some sample_node) []) =
    Ok (mkTrie (Some sample_node) []).
Proof.
  assert (Habs : node_at sample_node "ab" = None ∨
                 ∃ tip, node_at sample_node "ab" = Some tip ∧ "id3" ∉ IDSet tip).
  { right. eexists. split; [vm_compute; reflexivity|].
    apply (bool_decide_unpack _). vm_compute. reflexivity. }
  split; [exact Habs|].
  apply (Remove_absent_is_noop sample_node [] "ab" "id3"). exact Habs.
Defined.

(** Dereferencing [nil] does panic in the model: [findTip] from [nil]. *)
Example findTip_from_nil : findTip "a" None = Panic.
Proof. reflexivity. Qed.

(** The subtree of ["a"] in the sample holds three identifiers; a limit of
    two returns two of them. *)
Example GetMany_sample_two :
  ∃ ids t,
    GetMany ToLowerASCII "a" 2 (mkTrie (Some sample_node) []) = Ok (ids, t) ∧
    length ids = 2%nat.
Proof. eexists _, _. split; vm_compute; reflexivity. Qed.

(** Bounded prefix query of the design document: five identifiers under
    keys that start with ["ab"]; [GetMany("ab", 3)] returns three. *)
Example GetMany_ab_three :
  ∃ t ids t',
    run ToLowerASCII sample_ops NewTrie = Ok t ∧
    GetMany ToLowerASCII "ab" 3 t = Ok (ids, t') ∧
    length ids = 3%nat ∧
    ids ⊆ ["1"; "2"; "3"; "4"; "5"].
Proof.
  eexists _, _, _. split_and!; try (vm_compute; reflexivity).
  apply (bool_decide_unpack _). vm_compute. reflexivity.
Qed.

(** Non-interference of the design document: removing the identifier of
    ["car"] keeps the identifier of ["cart"]. *)
Example Remove_car_keeps_cart :
  ∃ t t1 t2 t3,
    run ToLowerASCII sample_ops NewTrie = Ok t ∧
    Remove "car" "6" t = Ok t1 ∧
    Get ToLowerASCII "car" t1 = Ok ([], t2) ∧
    Get ToLowerASCII "cart" t1 = Ok (["7"], t3).
Proof. eexists _, _, _, _. split_and!; vm_compute; reflexivity. Qed.

(** Unknown prefix of the design document. *)
Example unknown_prefix :
  ∃ t t1 t2,
    run ToLowerASCII sample_ops NewTrie = Ok t ∧
    GetMany ToLowerASCII "zzz" 10 t = Ok ([], t1) ∧
    Get ToLowerASCII "zzz" t = Ok ([], t2).
Proof. eexists _, _, _. split_and!; vm_compute; reflexivity. Qed.


(** * Further properties of the code *)

(** ** The index as a table from paths to identifier sets *)

Lemma rune_of_byte_inj (a b : ascii) :
  rune_of_byte a = rune_of_byte b → a = b.
Proof.
  unfold rune_of_byte. intros H%N2Z.inj.
  rewrite <- (ascii_N_embedding a), <- (ascii_N_embedding b). by rewrite H.
Qed.

Lemma ids_at_nil (n : TrieNode) : ids_at n EmptyString = IDSet n.
Proof. done. Qed.

Lemma ids_at_cons (n : TrieNode) (b : ascii) (s : string) :
  ids_at n (String b s) =
  match link n !! rune_of_byte b with
  | Some (Some c) => ids_at c s
  | _ => ∅
  end.
Proof. unfold ids_at; simpl. by destruct (link n !! rune_of_byte b) as [[c|]|]. Qed.

Lemma ids_at_NewTrieNode (s : string) : ids_at NewTrieNode s = ∅.
Proof. destruct s; [done|]. by rewrite ids_at_cons. Qed.

(** The identifiers along the paths of a node whose link for the byte [b]
    has been set to the node [c']. *)
Lemma ids_at_PutLink (n c' : TrieNode) (b : ascii) (s' : string) :
  ids_at (PutLink n (rune_of_byte b) (Some c')) s' =
  match s' with
  | EmptyString => IDSet n
  | String b' x => if decide (b' = b) then ids_at c' x else ids_at n s'
  end.
Proof.
  destruct s' as [|b' x]; [done|].
  rewrite !ids_at_cons. simpl. destruct (decide (b' = b)) as [->|Hne].
  - by rewrite lookup_insert_eq.
  - rewrite lookup_insert_ne; [done|]. by intros ?%rune_of_byte_inj.
Qed.

Lemma ids_at_GetLink (n c : TrieNode) (b : ascii) (x : string) :
  GetLink n (rune_of_byte b) = Some c → ids_at n (String b x) = ids_at c x.
Proof.
  rewrite GetLink_lookup, ids_at_cons.
  by destruct (link n !! rune_of_byte b) as [[c0|]|]; intros ?; simplify_eq.
Qed.

Lemma ids_at_GetLink_nil (n : TrieNode) (b : ascii) (x : string) :
  GetLink n (rune_of_byte b) = None → ids_at n (String b x) = ∅.
Proof.
  rewrite GetLink_lookup, ids_at_cons.
  by destruct (link n !! rune_of_byte b) as [[c0|]|].
Qed.

(** What the loop of [Add] does to the table: [id] joins the set at the end
    of the path [s], and the set at every other path is what it was. *)
Lemma add_loop_ids_at (s : string) (id : ObjectId) (n n' : TrieNode) (tip : ptr) :
  add_loop s id (Some n) = Ok (n', tip) →
  ∀ s', ids_at n' s' =
        if decide (s' = s) then {[ id ]} ∪ ids_at n s else ids_at n s'.
Proof.
  revert n n' tip. induction s as [|b s IH]; intros n n' tip; simpl.
  - intros Hrun s'.
    assert (Hn' : IDSet n' = {[ id ]} ∪ IDSet n ∧ link n' = link n).
    { unfold ContainsVal, IDSet.ContainsVal in Hrun.
      case_bool_decide; simpl in Hrun; simplify_eq; simpl; [|done].
      split; [set_solver|done]. }
    destruct Hn' as [Hids Hlink].
    destruct s' as [|b' x]; simpl.
    + by rewrite !ids_at_nil.
    + rewrite !ids_at_cons. by rewrite Hlink.
  - destruct (GetLink n (rune_of_byte b)) as [c|] eqn:Hl.
    + destruct (add_loop s id (Some c)) as [[c' tip']|] eqn:Hrec;
        simpl; intros Hrun; simplify_eq.
      intros s'. rewrite ids_at_PutLink.
      destruct s' as [|b' x]; [done|].
      destruct (decide (b' = b)) as [->|Hne].
      * rewrite (IH _ _ _ Hrec x), !(ids_at_GetLink n c) by done.
        repeat case_decide; by simplify_eq.
      * case_decide; by simplify_eq.
    + destruct (add_loop s id (Some NewTrieNode)) as [[c' tip']|] eqn:Hrec;
        simpl; intros Hrun; simplify_eq.
      intros s'. rewrite PutLink_PutLink, ids_at_PutLink.
      destruct s' as [|b' x]; [done|].
      destruct (decide (b' = b)) as [->|Hne].
      * rewrite (IH _ _ _ Hrec x), !ids_at_NewTrieNode,
          !(ids_at_GetLink_nil n) by done.
        repeat case_decide; by simplify_eq.
      * case_decide; by simplify_eq.
Qed.

(** [removeHelper] asks for an unlink only for a node that it leaves with
    no identifier and no key. *)
Lemma removeHelper_true (s : string) (id : ObjectId) (n n' : TrieNode) :
  removeHelper (Some n) s id = Ok (true, n') →
  s = EmptyString ∧ IDSet n' = ∅ ∧ link n' = ∅.
Proof.
  destruct s as [|b s].
  - simpl. destruct (negb (ContainsVal n id)); [done|].
    destruct (_ && _) eqn:Hleaf; [|done].
    intros; simplify_eq.
    apply andb_true_iff in Hleaf as [Hlen Hleaf].
    apply IsLeafNode_true in Hleaf. apply Nat.eqb_eq in Hlen.
    split_and!; [done| |done].
    apply set_eq. intros x. rewrite <- elem_of_GetVals.
    destruct (GetVals (RemoveVal n id)); [|done].
    split; [by intros ?%not_elem_of_nil|by intros ?%not_elem_of_empty].
  - intros Hrun.
    destruct (removeHelper_no_propagation n b s id) as [n2 Hn2].
    rewrite Hn2 in Hrun. by simplify_eq.
Qed.

Lemma ids_at_leaf (n : TrieNode) (s : string) :
  IDSet n = ∅ → link n = ∅ → ids_at n s = ∅.
Proof.
  intros Hids Hlink. destruct s; [done|]. by rewrite ids_at_cons, Hlink.
Qed.

(** What [removeHelper] does to the table: [id] leaves the set at the end
    of the path [s], and the set at every other path is what it was. *)
Lemma removeHelper_ids_at
    (s : string) (id : ObjectId) (n n' : TrieNode) (d : bool) :
  removeHelper (Some n) s id = Ok (d, n') →
  ∀ s', ids_at n' s' =
        if decide (s' = s) then ids_at n s ∖ {[ id ]} else ids_at n s'.
Proof.
  revert n n' d. induction s as [|b s IH]; intros n n' d; simpl.
  - intros Hrun s'.
    assert (Hn' : IDSet n' = IDSet n ∖ {[ id ]} ∧ link n' = link n).
    { unfold ContainsVal, IDSet.ContainsVal in Hrun.
      case_bool_decide; simpl in Hrun.
      - destruct (_ && _); by simplify_eq.
      - simplify_eq. split; [set_solver|done]. }
    destruct Hn' as [Hids Hlink].
    destruct s' as [|b' x]; simpl.
    + by rewrite !ids_at_nil.
    + rewrite !ids_at_cons. by rewrite Hlink.
  - destruct (GetLink n (rune_of_byte b)) as [c|] eqn:Hl.
    + destruct (removeHelper (Some c) s id) as [[d' c']|] eqn:Hrec;
        simpl; [|done].
      intros Hrun s'.
      assert (Hs' : ids_at n' s' =
        match s' with
        | EmptyString => IDSet n
        | String b' x => if decide (b' = b) then ids_at c' x else ids_at n s'
        end).
      { destruct d'; simplify_eq.
        - apply removeHelper_true in Hrec as (_ & Hids & Hlink).
          destruct s' as [|b' x]; [done|].
          rewrite !ids_at_cons. simpl. destruct (decide (b' = b)) as [->|Hne].
          + by rewrite lookup_insert_eq, ids_at_leaf.
          + rewrite !lookup_insert_ne; [done|by intros ?%rune_of_byte_inj..].
        - apply ids_at_PutLink. }
      rewrite Hs'. destruct s' as [|b' x]; [done|].
      destruct (decide (b' = b)) as [->|Hne].
      * rewrite (IH _ _ _ Hrec x), !(ids_at_GetLink n c) by done.
        repeat case_decide; by simplify_eq.
      * case_decide; by simplify_eq.
    + intros Hrun s'. simplify_eq.
      case_decide; [|done]. subst s'.
      rewrite ids_at_GetLink_nil by done. set_solver.
Qed.

Lemma elements_ids_at (n : TrieNode) (path : string) :
  match node_at n path with
  | Some tip => GetVals tip
  | None => []
  end = elements (ids_at n path).
Proof.
  unfold ids_at. destruct (node_at n path); [done|].
  by rewrite elements_empty.
Qed.

Section Table.

Variable ToLower : string → string.

Lemma Get_ids_at (n : TrieNode) (m : RWMutex) (k : string) :
  Get ToLower k (mkTrie (Some n) m) =
    Ok (elements (ids_at n (ToLower k)),
        mkTrie (Some n) (m ++ [CRLock; CRUnlock])).
Proof. by rewrite Get_spec, elements_ids_at. Qed.

Lemma Add_ids_at (n : TrieNode) (m : RWMutex) (k : string) (id : ObjectId) :
  ∃ n' tip,
    Add ToLower k id (mkTrie (Some n) m) =
      Ok (Some tip, mkTrie (Some n') (m ++ [CLock; CUnlock])) ∧
    ∀ path, ids_at n' path = apply_op ToLower path (ids_at n path) (OpAdd k id).
Proof.
  destruct (add_loop_spec (ToLower k) id n) as (n' & tip & Hrun & _).
  exists n', tip. split.
  - unfold Add; simpl. rewrite Hrun; simpl.
    unfold mx_call, set_root; simpl. by rewrite <- app_assoc.
  - intros path. rewrite (add_loop_ids_at _ _ _ _ _ Hrun path). simpl.
    repeat case_decide; by simplify_eq.
Qed.

Lemma Remove_ids_at (n : TrieNode) (m : RWMutex) (p : string) (id : ObjectId) :
  ∃ n',
    Remove p id (mkTrie (Some n) m) = Ok (mkTrie (Some n') m) ∧
    ∀ path, ids_at n' path = apply_op ToLower path (ids_at n path) (OpRemove p id).
Proof.
  destruct (removeHelper_spec p id n) as (d & n' & Hrun & _).
  exists n'. split.
  - unfold Remove; simpl. by rewrite Hrun.
  - intros path. rewrite (removeHelper_ids_at _ _ _ _ _ Hrun path). simpl.
    repeat case_decide; by simplify_eq.
Qed.



Lemma step_ids_at (o : Op) (t : Trie) (n : TrieNode) :
  root t = Some n →
  ∃ t' n',
    step ToLower t o = Ok t' ∧ root t' = Some n' ∧
    ∀ path, ids_at n' path = apply_op ToLower path (ids_at n path) o.
Proof.
  destruct t as [r m]; simpl; intros ->.
  destruct o as [s id|p id|p|p lim]; simpl.
  - destruct (Add_ids_at n m s id) as (n' & tip & -> & Hids). by eexists _, n'.
  - destruct (Remove_ids_at n m p id) as (n' & -> & Hids). by eexists _, n'.
  - rewrite Get_spec. simpl. by eexists _, n.
  - rewrite GetMany_spec. simpl. by eexists _, n.
Qed.

Lemma run_ids_at (ops : list Op) (t : Trie) (n : TrieNode) :
  root t = Some n →
  ∃ t' n',
    run ToLower ops t = Ok t' ∧ root t' = Some n' ∧
    ∀ path, ids_at n' path = foldl (apply_op ToLower path) (ids_at n path) ops.
Proof.
  revert t n. induction ops as [|o ops IH]; intros t n Hroot; simpl.
  - by exists t, n.
  - destruct (step_ids_at o t n Hroot) as (t1 & n1 & -> & Hroot1 & Hids1). simpl.
    destruct (IH t1 n1 Hroot1) as (t2 & n2 & Hrun & Hroot2 & Hids2).
    exists t2, n2. split_and!; try done.
    intros path. by rewrite Hids2, Hids1.
Qed.

(** X3.  The trie is a table from folded keys to identifier sets: after any
    sequence of calls on a new trie, [Get(k)] returns exactly the
    identifiers that the [Add]s filed under the folded [k] and that no
    later [Remove] spelled as that folded key withdrew. *)
Theorem Get_after_run (ops : list Op) (k : string) :
  ∃ t ids t',
    run ToLower ops NewTrie = Ok t ∧
    Get ToLower k t = Ok (ids, t') ∧
    ids = elements (stored_under ToLower (ToLower k) ops).
Proof.
  destruct (run_ids_at ops NewTrie NewTrieNode eq_refl)
    as ([r m] & n & Hrun & Hroot & Hids).
  simpl in Hroot. subst r.
  eexists _, _, _. split; [exact Hrun|]. split; [apply Get_ids_at|].
  by rewrite Hids, ids_at_NewTrieNode.
Qed.

End Table.

(** ** Prefix queries and the table *)

Lemma node_at_app (n : TrieNode) (s1 s2 : string) :
  node_at n (s1 +:+ s2) =
  match node_at n s1 with
  | Some c => node_at c s2
  | None => None
  end.
Proof.
  revert n. induction s1 as [|b s1 IH]; intros n; simpl; [done|].
  by destruct (link n !! rune_of_byte b) as [[c|]|].
Qed.

Lemma ids_at_app (n : TrieNode) (s1 s2 : string) :
  ids_at n (s1 +:+ s2) =
  match node_at n s1 with
  | Some c => ids_at c s2
  | None => ∅
  end.
Proof. unfold ids_at. rewrite node_at_app. by destruct (node_at n s1). Qed.

Lemma ids_at_subtree (n : TrieNode) (s : string) :
  ids_at n s ⊆ subtree_ids n.
Proof.
  revert n. induction s as [|b s IH]; intros n x Hx;
    apply elem_of_subtree_ids.
  - by left.
  - rewrite ids_at_cons in Hx.
    destruct (link n !! rune_of_byte b) as [[c|]|] eqn:Hl;
      try by apply not_elem_of_empty in Hx.
    right. exists (rune_of_byte b), c. split; [done|]. by apply IH.
Qed.

(** A pass with a limit that is not positive collects nothing. *)
Lemma collected_nonpositive (lim : Z) (src res : gset ObjectId) :
  lim ≤ 0 → collected lim src ∅ res → res = ∅.
Proof.
  unfold collected, IDSet.Size. intros Hlim (_ & _ & [Hcap|Hcap] & _); [|done].
  apply leibniz_equiv, size_empty_inv.
  apply Nat2Z.inj. rewrite Nat2Z.inj_0.
  apply Z.le_antisymm; [by etrans|apply Nat2Z.is_nonneg].
Qed.

(** A pass with a limit that the source fits in collects all of it. *)
Lemma collected_all (lim : Z) (src res : gset ObjectId) :
  Z.of_nat (size src) ≤ lim → collected lim src ∅ res → res = src.
Proof.
  unfold collected, IDSet.Size. intros Hlim (_ & Hsub & _ & Hall).
  assert (Hres : res ⊆ src).
  { intros x Hx. apply Hsub, elem_of_union in Hx as [Hx|Hx]; [|done].
    by apply not_elem_of_empty in Hx. }
  destruct (Z_lt_le_dec (Z.of_nat (size res)) lim) as [Hlt|Hge].
  - apply set_eq. intros x. split; [apply Hres|apply (Hall Hlt)].
  - assert (Hle : (size src ≤ size res)%nat).
    { apply Nat2Z.inj_le. by etrans. }
    exact (set_subseteq_size_eq res src Hres Hle).
Qed.

Lemma depthFirst_collected (lim : Z) (curr : ptr) (res : IDSet.t) :
  collected lim (ids_below curr) res (depthFirst curr lim res).
Proof.
  destruct curr as [n|]; simpl.
  - apply depthFirst_node_collected.
  - apply collected_refl.
Qed.

Lemma depthFirst_nonpositive (lim : Z) (curr : ptr) :
  lim ≤ 0 → depthFirst curr lim (∅ : IDSet.t) = ∅.
Proof.
  intros Hlim. apply (collected_nonpositive lim (ids_below curr)); [done|].
  apply depthFirst_collected.
Qed.

Lemma depthFirst_all (lim : Z) (curr : ptr) :
  Z.of_nat (size (ids_below curr)) ≤ lim →
  depthFirst curr lim (∅ : IDSet.t) = ids_below curr.
Proof.
  intros Hlim. apply (collected_all lim); [done|].
  apply depthFirst_collected.
Qed.

Section Prefix.

Variable ToLower : string → string.

(** X4.  With a limit that is zero or negative, [GetMany] returns the empty
    sequence, whatever the tree holds. *)
Theorem GetMany_nonpositive_limit
    (n : TrieNode) (m : RWMutex) (p : string) (lim : Z) :
  lim ≤ 0 →
  ∃ t', GetMany ToLower p lim (mkTrie (Some n) m) = Ok ([], t').
Proof.
  intros Hlim. rewrite GetMany_spec. eexists. do 2 f_equal.
  rewrite depthFirst_nonpositive by done.
  apply elements_empty.
Qed.

(** X5.  With a limit that is at least the number of identifiers at or
    below the node of the folded prefix, [GetMany] returns every one of
    them, and nothing else. *)
Theorem GetMany_returns_all
    (n : TrieNode) (m : RWMutex) (p : string) (lim : Z) :
  Z.of_nat (size (ids_below (node_at n (ToLower p)))) ≤ lim →
  ∃ ids t',
    GetMany ToLower p lim (mkTrie (Some n) m) = Ok (ids, t') ∧
    NoDup ids ∧
    ∀ id, id ∈ ids ↔ id ∈ ids_below (node_at n (ToLower p)).
Proof.
  intros Hlim. rewrite GetMany_spec. eexists _, _. split; [done|].
  rewrite depthFirst_all by done.
  split; [apply NoDup_elements|]. intros id. apply elem_of_elements.
Qed.

(** X6.  Prefix completeness: when the folded [k] begins with the folded
    [p] and the limit is at least the number of identifiers at or below the
    node of [p], everything [Get(k)] returns is returned by
    [GetMany(p, lim)]. *)
Theorem GetMany_includes_Get
    (n : TrieNode) (m : RWMutex) (p k suffix : string) (lim : Z) :
  ToLower k = ToLower p +:+ suffix →
  Z.of_nat (size (ids_below (node_at n (ToLower p)))) ≤ lim →
  ∃ ids t1 ids' t2,
    GetMany ToLower p lim (mkTrie (Some n) m) = Ok (ids, t1) ∧
    Get ToLower k (mkTrie (Some n) m) = Ok (ids', t2) ∧
    ids' ⊆ ids.
Proof.
  intros Hk Hlim. rewrite GetMany_spec, Get_ids_at. eexists _, _, _, _.
  split; [done|]. split; [done|].
  rewrite depthFirst_all by done.
  intros x. rewrite !elem_of_elements, Hk, ids_at_app.
  destruct (node_at n (ToLower p)) as [tip|]; simpl; [|done].
  apply ids_at_subtree.
Qed.

End Prefix.

(** ** How calls compose *)

Lemma stored_under_unfolded
    (ToLower : string → string) (p : string) (ops : list Op) :
  (∀ s, ToLower s ≠ p) → stored_under ToLower p ops = ∅.
Proof.
  intros Hp. unfold stored_under.
  induction ops as [|o ops IH] using rev_ind; [done|].
  rewrite foldl_snoc, IH.
  destruct o as [s id|q id| |]; simpl; try done.
  - case_decide; [by destruct (Hp s)|done].
  - case_decide; [set_solver|done].
Qed.

Lemma ToLowerASCII_not_FOO (s : string) : ToLowerASCII s ≠ "FOO".
Proof.
  destruct s as [|b s]; [done|]. simpl. intros [= Hb _]. revert Hb.
  destruct b as [[] [] [] [] [] [] [] []]; vm_compute; discriminate.
Qed.

Section Composition.

Variable ToLower : string → string.

(** X7.  [Remove] is idempotent: a second [Remove(p, id)] returns the trie
    that the first one returned. *)
Theorem Remove_idempotent
    (n : TrieNode) (m : RWMutex) (p : string) (id : ObjectId) :
  ∃ t1,
    Remove p id (mkTrie (Some n) m) = Ok t1 ∧
    Remove p id t1 = Ok t1.
Proof.
  destruct (removeHelper_removes p id n) as (d & n' & Hrun & Hat).
  exists (mkTrie (Some n') m). unfold Remove; simpl. rewrite Hrun. simpl.
  split; [done|]. by rewrite (removeHelper_absent p id n' Hat).
Qed.


(** X9.  [Remove] with a prefix that is not the folded form of any key
    never changes anything: after any sequence of calls on a new trie it
    returns the trie it was given.  (With [strings.ToLower], every prefix
    that has an upper-case letter is such a prefix.) *)
Theorem Remove_unfolded_prefix_is_noop
    (ops : list Op) (p : string) (id : ObjectId) :
  (∀ s, ToLower s ≠ p) →
  ∃ t, run ToLower ops NewTrie = Ok t ∧ Remove p id t = Ok t.
Proof.
  intros Hp.
  destruct (run_ids_at ToLower ops NewTrie NewTrieNode eq_refl)
    as ([r m] & n & Hrun & Hroot & Hids).
  simpl in Hroot. subst r.
  exists (mkTrie (Some n) m). split; [exact Hrun|].
  unfold Remove; simpl. rewrite removeHelper_absent; [done|].
  specialize (Hids p). rewrite ids_at_NewTrieNode in Hids.
  fold (stored_under ToLower p ops) in Hids.
  rewrite stored_under_unfolded in Hids by done.
  unfold ids_at in Hids. destruct (node_at n p) as [tip|]; [|done].
  rewrite Hids. apply not_elem_of_empty.
Qed.

(** X10.  [Add] returns a pointer that is not [nil], to the node that
    [findTip] reaches along the folded key in the updated tree; that node
    holds [id]. *)
Theorem Add_returns_terminal_node
    (n : TrieNode) (m : RWMutex) (k : string) (id : ObjectId) :
  ∃ tip t1,
    Add ToLower k id (mkTrie (Some n) m) = Ok (Some tip, t1) ∧
    findTip (ToLower k) (root t1) = Ok (Some tip) ∧
    ContainsVal tip id = true.
Proof.
  destruct (Add_spec ToLower n m k id) as (n' & tip & HAdd & Hat & Hin & _).
  eexists _, _. split; [exact HAdd|]. simpl.
  rewrite findTip_node_at, Hat. split; [done|].
  unfold ContainsVal, IDSet.ContainsVal. by apply bool_decide_eq_true.
Qed.

(** X11.  The calls on the mutex are paired: after any sequence of calls on
    a new trie, the history of the mutex is one that a single caller can
    make (no call blocks, no unlock of a mutex that is not held) and that
    leaves the mutex free. *)
Theorem mutex_is_released (ops : list Op) :
  ∃ t, run ToLower ops NewTrie = Ok t ∧ mx_replay (mx t) = Some (false, O).
Proof.
  assert (Hgen : ∀ t n, root t = Some n → mx_replay (mx t) = Some (false, O) →
    ∃ t', run ToLower ops t = Ok t' ∧ mx_replay (mx t') = Some (false, O)).
  { induction ops as [|o ops IH]; intros [r m] n Hroot Hmx; simpl in *.
    - by eexists.
    - subst r.
      assert (Hstep : ∃ n' m',
        step ToLower (mkTrie (Some n) m) o = Ok (mkTrie (Some n') m') ∧
        mx_replay m' = Some (false, O)).
      { unfold mx_replay in *.
        destruct o as [s id|p id|p|p lim]; simpl.
        - destruct (Add_spec ToLower n m s id) as (n' & tip & -> & _). simpl.
          eexists _, _. split; [done|]. by rewrite foldl_app, Hmx.
        - destruct (Remove_spec n m p id) as (n' & -> & _).
          by eexists _, _.
        - rewrite Get_spec. simpl.
          eexists _, _. split; [done|]. by rewrite foldl_app, Hmx.
        - rewrite GetMany_spec. simpl.
          eexists _, _. split; [done|]. by rewrite foldl_app, Hmx. }
      destruct Hstep as (n' & m' & -> & Hmx'). simpl.
      by apply (IH _ n'). }
  by apply (Hgen NewTrie NewTrieNode).
Qed.

End Composition.

(** ** The methods of a node *)

(** X12.  [GetAllRunes] lists every key of the link map exactly once, the
    keys mapped to [nil] included, and [IsLeafNode] answers true exactly
    when the map has no key at all. *)
Theorem GetAllRunes_lists_keys (n : TrieNode) :
  NoDup (GetAllRunes n) ∧
  (∀ r, r ∈ GetAllRunes n ↔ is_Some (link n !! r)) ∧
  (IsLeafNode n = true ↔ link n = ∅).
Proof.
  split_and!.
  - rewrite GetAllRunes_map_to_list, reverse_Permutation.
    apply NoDup_fst_map_to_list.
  - apply elem_of_GetAllRunes.
  - apply IsLeafNode_true.
Qed.

(** X13.  [PutLink(r, l)] then [GetLink(r)] gives [l] back; the other links
    and the identifiers are untouched, [r] is among the runes and the node
    is not a leaf, even when [l] is [nil]. *)
Theorem PutLink_then_reads (n : TrieNode) (r : rune) (l : ptr) :
  GetLink (PutLink n r l) r = l ∧
  (∀ r', r' ≠ r → GetLink (PutLink n r l) r' = GetLink n r') ∧
  GetVals (PutLink n r l) = GetVals n ∧
  r ∈ GetAllRunes (PutLink n r l) ∧
  IsLeafNode (PutLink n r l) = false.
Proof.
  split_and!.
  - apply GetLink_PutLink.
  - intros r' Hne. unfold GetLink, PutLink; simpl.
    by rewrite lookup_insert_ne.
  - done.
  - apply elem_of_GetAllRunes. simpl. by rewrite lookup_insert_eq.
  - apply not_true_is_false. rewrite IsLeafNode_true. simpl.
    apply insert_non_empty.
Qed.

(** X14.  [RemoveLink(r)] makes [GetLink(r)] answer [nil] and leaves the
    other links and the identifiers untouched, but it keeps the key: [r] is
    still among the runes and the node is not a leaf. *)
Theorem RemoveLink_then_reads (n : TrieNode) (r : rune) :
  GetLink (RemoveLink n r) r = None ∧
  (∀ r', r' ≠ r → GetLink (RemoveLink n r) r' = GetLink n r') ∧
  GetVals (RemoveLink n r) = GetVals n ∧
  r ∈ GetAllRunes (RemoveLink n r) ∧
  IsLeafNode (RemoveLink n r) = false.
Proof.
  split_and!.
  - unfold GetLink, RemoveLink; simpl. by rewrite lookup_insert_eq.
  - intros r' Hne. unfold GetLink, RemoveLink; simpl.
    by rewrite lookup_insert_ne.
  - done.
  - apply elem_of_GetAllRunes. simpl. by rewrite lookup_insert_eq.
  - apply IsLeafNode_RemoveLink.
Qed.

(** ** Which nodes a call creates and unlinks *)

Lemma is_prefix_nil_r (s' : string) :
  is_prefix s' EmptyString = true ↔ s' = EmptyString.
Proof. by destruct s'. Qed.

Lemma node_at_cons (n : TrieNode) (b : ascii) (x : string) :
  node_at n (String b x) =
  match link n !! rune_of_byte b with
  | Some (Some c) => node_at c x
  | _ => None
  end.
Proof. done. Qed.

Lemma node_at_PutLink (n c' : TrieNode) (b b' : ascii) (x : string) :
  node_at (PutLink n (rune_of_byte b) (Some c')) (String b' x) =
  if decide (b' = b) then node_at c' x else node_at n (String b' x).
Proof.
  rewrite !node_at_cons. simpl. destruct (decide (b' = b)) as [->|Hne].
  - by rewrite lookup_insert_eq.
  - rewrite lookup_insert_ne; [done|]. by intros ?%rune_of_byte_inj.
Qed.

Lemma node_at_GetLink (n : TrieNode) (b : ascii) (x : string) :
  node_at n (String b x) =
  match GetLink n (rune_of_byte b) with
  | Some c => node_at c x
  | None => None
  end.
Proof.
  rewrite node_at_cons, GetLink_lookup.
  by destruct (link n !! rune_of_byte b) as [[c|]|].
Qed.

Lemma node_at_NewTrieNode (x : string) :
  is_Some (node_at NewTrieNode x) ↔ x = EmptyString.
Proof.
  destruct x as [|b x]; simpl.
  - split; [done|]. by eexists.
  - split; [by intros [? ?]|done].
Qed.

(** The loop of [Add] keeps every node, and the nodes it creates are those
    that the path [s] was missing. *)
Lemma add_loop_node_at (s : string) (id : ObjectId) (n n' : TrieNode) (tip : ptr) :
  add_loop s id (Some n) = Ok (n', tip) →
  ∀ s', is_Some (node_at n' s') ↔
        is_Some (node_at n s') ∨ is_prefix s' s = true.
Proof.
  revert n n' tip. induction s as [|b s IH]; intros n n' tip; simpl.
  - intros Hrun s'.
    assert (Hlink : link n' = link n).
    { destruct (negb (ContainsVal n id)); by simplify_eq. }
    destruct s' as [|b' x]; simpl.
    + split; [by left|by eexists].
    + rewrite Hlink. split; [by left|]. by intros [?|?].
  - destruct (GetLink n (rune_of_byte b)) as [c|] eqn:Hl.
    + destruct (add_loop s id (Some c)) as [[c' tip']|] eqn:Hrec;
        simpl; intros Hrun; simplify_eq.
      intros [|b' x].
      { simpl. split; [by left|by eexists]. }
      rewrite node_at_PutLink. cbn [is_prefix].
      destruct (decide (b' = b)) as [->|Hne].
      * rewrite bool_decide_eq_true_2, andb_true_l by done.
        by rewrite (IH _ _ _ Hrec x), (node_at_GetLink n), Hl.
      * rewrite bool_decide_eq_false_2, andb_false_l by done.
        split; [by left|]. by intros [?|?].
    + destruct (add_loop s id (Some NewTrieNode)) as [[c' tip']|] eqn:Hrec;
        simpl; intros Hrun; simplify_eq.
      rewrite PutLink_PutLink.
      intros [|b' x].
      { simpl. split; [by left|by eexists]. }
      rewrite node_at_PutLink. cbn [is_prefix].
      destruct (decide (b' = b)) as [->|Hne].
      * rewrite bool_decide_eq_true_2, andb_true_l by done.
        rewrite (IH _ _ _ Hrec x), (node_at_GetLink n), Hl. split.
        -- intros [->%node_at_NewTrieNode|Hx]; by right.
        -- intros [[? ?]|Hx]; [done|by right].
      * rewrite bool_decide_eq_false_2, andb_false_l by done.
        split; [by left|]. by intros [?|?].
Qed.

Lemma removeHelper_true_inv (s : string) (id : ObjectId) (n n' : TrieNode) :
  removeHelper (Some n) s id = Ok (true, n') →
  s = EmptyString ∧ IDSet n ∖ {[ id ]} = ∅ ∧ link n = ∅.
Proof.
  intros Hrun.
  destruct (removeHelper_true s id n n' Hrun) as (-> & Hids & Hlink).
  simpl in Hrun. destruct (negb (ContainsVal n id)); [done|].
  destruct (_ && _); simplify_eq. done.
Qed.

(** [removeHelper] creates no node, and keeps every node that is not at the
    end of its path. *)
Lemma removeHelper_node_at
    (s : string) (id : ObjectId) (n n' : TrieNode) (d : bool) :
  removeHelper (Some n) s id = Ok (d, n') →
  ∀ s',
    (is_Some (node_at n' s') → is_Some (node_at n s')) ∧
    (s' ≠ s → is_Some (node_at n s') → is_Some (node_at n' s')).
Proof.
  revert n n' d. induction s as [|b s IH]; intros n n' d; simpl.
  - intros Hrun s'.
    assert (Hlink : link n' = link n).
    { destruct (negb (ContainsVal n id)); [by simplify_eq|].
      destruct (_ && _); by simplify_eq. }
    destruct s' as [|b' x]; simpl; [by split; eexists|].
    by rewrite Hlink.
  - destruct (GetLink n (rune_of_byte b)) as [c|] eqn:Hl;
      [|by intros; simplify_eq].
    destruct (removeHelper (Some c) s id) as [[d' c']|] eqn:Hrec;
      simpl; [|done].
    intros Hrun [|b' x]; [by split; eexists|].
    destruct (decide (b' = b)) as [->|Hne].
    + rewrite (node_at_GetLink n), Hl.
      destruct (IH _ _ _ Hrec x) as [Hback Hkeep].
      destruct d'; simplify_eq.
      * apply removeHelper_true_inv in Hrec as (-> & _ & Hlink).
        rewrite node_at_cons. simpl. rewrite lookup_insert_eq.
        split; [by intros [? ?]|]. intros Hne.
        destruct x as [|b0 x]; [done|].
        rewrite node_at_cons, Hlink, lookup_empty. by intros [? ?].
      * rewrite node_at_PutLink, decide_True by done.
        split; [done|]. intros Hne. apply Hkeep. by intros ->.
    + assert (Heq : node_at n' (String b' x) = node_at n (String b' x)).
      { rewrite !node_at_cons.
        destruct d'; simplify_eq; simpl;
          rewrite !lookup_insert_ne; try done; by intros ?%rune_of_byte_inj. }
      by rewrite Heq.
Qed.

(** [removeHelper] keeps the node at the end of its path when that node has
    a key in its link map or an identifier other than [id]. *)
Lemma removeHelper_node_at_live
    (s : string) (id : ObjectId) (n n' tip : TrieNode) (d : bool) :
  removeHelper (Some n) s id = Ok (d, n') →
  node_at n s = Some tip →
  link tip ≠ ∅ ∨ IDSet tip ∖ {[ id ]} ≠ ∅ →
  is_Some (node_at n' s).
Proof.
  revert n n' d. induction s as [|b s IH]; intros n n' d Hrun Hat Hlive.
  - by eexists.
  - simpl in Hrun. rewrite node_at_GetLink in Hat.
    destruct (GetLink n (rune_of_byte b)) as [c|] eqn:Hl; [|done].
    destruct (removeHelper (Some c) s id) as [[d' c']|] eqn:Hrec;
      simpl in Hrun; [|done].
    destruct d'; simplify_eq.
    + apply removeHelper_true_inv in Hrec as (-> & Hids & Hlink).
      simpl in Hat. simplify_eq. by destruct Hlive.
    + rewrite node_at_PutLink, decide_True by done. by eapply IH.
Qed.

(** ** Keys that are bytes *)

Lemma byte_keyed_NewTrieNode : byte_keyed NewTrieNode.
Proof.
  constructor; simpl.
  - intros r [c Hc]. by rewrite lookup_empty in Hc.
  - intros r c Hc. by rewrite lookup_empty in Hc.
Qed.

Lemma byte_keyed_inv (n : TrieNode) :
  byte_keyed n →
  (∀ r, is_Some (link n !! r) → ∃ b, r = rune_of_byte b) ∧
  (∀ r c, link n !! r = Some (Some c) → byte_keyed c).
Proof. by intros []. Qed.

Lemma byte_keyed_link (n n' : TrieNode) :
  link n' = link n → byte_keyed n → byte_keyed n'.
Proof.
  intros Hlink [Hkeys Hsub]%byte_keyed_inv. constructor; rewrite Hlink; done.
Qed.

Lemma byte_keyed_insert (n : TrieNode) (b : ascii) (l : ptr) (ids : IDSet.t) :
  byte_keyed n →
  match l with Some c => byte_keyed c | None => True end →
  byte_keyed (mkTrieNode (<[ rune_of_byte b := l ]> (link n)) ids).
Proof.
  intros [Hkeys Hsub]%byte_keyed_inv Hl. constructor; simpl.
  - intros r. destruct (decide (r = rune_of_byte b)) as [->|Hne]; [by eexists|].
    rewrite lookup_insert_ne by done. apply Hkeys.
  - intros r c. destruct (decide (r = rune_of_byte b)) as [->|Hne].
    + rewrite lookup_insert_eq. by intros; simplify_eq.
    + rewrite lookup_insert_ne by done. apply Hsub.
Qed.

Lemma byte_keyed_GetLink (n c : TrieNode) (r : rune) :
  byte_keyed n → GetLink n r = Some c → byte_keyed c.
Proof.
  intros [_ Hsub]%byte_keyed_inv. rewrite GetLink_lookup.
  destruct (link n !! r) as [[c0|]|] eqn:Hl; intros; simplify_eq.
  by eapply Hsub.
Qed.

Lemma byte_keyed_node_at (n tip : TrieNode) (s : string) :
  byte_keyed n → node_at n s = Some tip → byte_keyed tip.
Proof.
  revert n. induction s as [|b s IH]; intros n Hn Hat.
  - simpl in Hat. injection Hat as <-. exact Hn.
  - rewrite node_at_cons in Hat.
    destruct (link n !! rune_of_byte b) as [[c|]|] eqn:Hl;
      [|discriminate..].
    apply (IH c); [|exact Hat].
    pose proof (byte_keyed_inv n Hn) as [_ Hsub]. exact (Hsub _ _ Hl).
Qed.

Lemma add_loop_byte_keyed (s : string) (id : ObjectId) (n n' : TrieNode) (tip : ptr) :
  byte_keyed n → add_loop s id (Some n) = Ok (n', tip) → byte_keyed n'.
Proof.
  revert n n' tip. induction s as [|b s IH]; intros n n' tip Hn; simpl.
  - intros Hrun. apply (byte_keyed_link n); [|done].
    destruct (negb (ContainsVal n id)); by simplify_eq.
  - destruct (GetLink n (rune_of_byte b)) as [c|] eqn:Hl.
    + destruct (add_loop s id (Some c)) as [[c' tip']|] eqn:Hrec;
        simpl; intros Hrun; simplify_eq.
      apply byte_keyed_insert; [done|].
      eapply IH; [|done]. by eapply byte_keyed_GetLink.
    + destruct (add_loop s id (Some NewTrieNode)) as [[c' tip']|] eqn:Hrec;
        simpl; intros Hrun; simplify_eq.
      rewrite PutLink_PutLink. apply byte_keyed_insert; [done|].
      eapply IH; [|done]. apply byte_keyed_NewTrieNode.
Qed.

Lemma removeHelper_byte_keyed
    (s : string) (id : ObjectId) (n n' : TrieNode) (d : bool) :
  byte_keyed n → removeHelper (Some n) s id = Ok (d, n') → byte_keyed n'.
Proof.
  revert n n' d. induction s as [|b s IH]; intros n n' d Hn; simpl.
  - intros Hrun. apply (byte_keyed_link n); [|done].
    destruct (negb (ContainsVal n id)); [by simplify_eq|].
    destruct (_ && _); by simplify_eq.
  - destruct (GetLink n (rune_of_byte b)) as [c|] eqn:Hl;
      [|by intros; simplify_eq].
    destruct (removeHelper (Some c) s id) as [[d' c']|] eqn:Hrec;
      simpl; [|done].
    assert (byte_keyed c').
    { eapply IH; [|done]. by eapply byte_keyed_GetLink. }
    destruct d'; intros; simplify_eq.
    + unfold RemoveLink, PutLink; simpl. rewrite insert_insert_eq.
      by apply byte_keyed_insert.
    + by apply byte_keyed_insert.
Qed.

(** In a tree whose keys are bytes, the identifiers at or below a node are
    those at the end of some path of bytes from it. *)
Lemma subtree_ids_paths (n : TrieNode) (id : ObjectId) :
  byte_keyed n →
  id ∈ subtree_ids n ↔ ∃ s, id ∈ ids_at n s.
Proof.
  intros Hn. split; [|intros [s Hs]; by eapply ids_at_subtree].
  revert Hn. induction n as [n IH] using TrieNode_child_ind.
  intros [Hkeys Hsub]%byte_keyed_inv. rewrite elem_of_subtree_ids.
  intros [Hid|(r & c & Hl & Hid)].
  - by exists EmptyString.
  - destruct (Hkeys r) as [b ->]; [by eexists|].
    destruct (IH _ _ Hl (Hsub _ _ Hl) Hid) as [s Hs].
    exists (String b s). by rewrite ids_at_cons, Hl.
Qed.

Section Structure.

Variable ToLower : string → string.

(** X15.  [Add] unlinks nothing and creates nodes only along its path:
    after [Add(k, id)] a path leads to a node exactly when it did before or
    when it is a prefix of the folded key. *)
Theorem Add_creates_nodes_on_path
    (n : TrieNode) (m : RWMutex) (k s' : string) (id : ObjectId) :
  ∃ tip n' m',
    Add ToLower k id (mkTrie (Some n) m) = Ok (tip, mkTrie (Some n') m') ∧
    (is_Some (node_at n' s') ↔
     is_Some (node_at n s') ∨ is_prefix s' (ToLower k) = true).
Proof.
  destruct (add_loop_spec (ToLower k) id n) as (n' & tip & Hrun & _).
  exists (Some tip), n', (m ++ [CLock; CUnlock]). split.
  - unfold Add; simpl. rewrite Hrun; simpl.
    unfold mx_call, set_root; simpl. by rewrite <- app_assoc.
  - by eapply add_loop_node_at.
Qed.

(** X16.  [Remove(p, id)] keeps every node that is off the end of its path,
    and the node at the end of its path too when that node has a key in its
    link map or an identifier other than [id]. *)
Theorem Remove_keeps_live_nodes
    (n tip : TrieNode) (m : RWMutex) (p s' : string) (id : ObjectId) :
  node_at n s' = Some tip →
  s' ≠ p ∨ link tip ≠ ∅ ∨ IDSet tip ∖ {[ id ]} ≠ ∅ →
  ∃ n',
    Remove p id (mkTrie (Some n) m) = Ok (mkTrie (Some n') m) ∧
    is_Some (node_at n' s').
Proof.
  intros Hat Hlive.
  destruct (removeHelper_spec p id n) as (d & n' & Hrun & _).
  exists n'. split.
  { unfold Remove; simpl. by rewrite Hrun. }
  destruct (decide (s' = p)) as [->|Hne].
  - destruct Hlive as [?|Hlive]; [done|].
    by eapply removeHelper_node_at_live.
  - apply (removeHelper_node_at _ _ _ _ _ Hrun s'); [done|].
    by rewrite Hat.
Qed.

Lemma step_byte_keyed (o : Op) (n : TrieNode) (m : RWMutex) :
  byte_keyed n →
  ∃ n1 m1,
    step ToLower (mkTrie (Some n) m) o = Ok (mkTrie (Some n1) m1) ∧
    byte_keyed n1.
Proof.
  intros Hn. destruct o as [s id|p id|p|p lim]; simpl.
  - destruct (add_loop_spec (ToLower s) id n) as (n1 & tip & Hrun & _).
    unfold Add; simpl. rewrite Hrun; simpl.
    eexists _, _. split; [reflexivity|].
    exact (add_loop_byte_keyed _ _ _ _ _ Hn Hrun).
  - destruct (removeHelper_spec p id n) as (d & n1 & Hrun & _).
    unfold Remove; simpl. rewrite Hrun; simpl.
    eexists _, _. split; [reflexivity|].
    exact (removeHelper_byte_keyed _ _ _ _ _ Hn Hrun).
  - rewrite Get_spec. simpl. eexists _, _. split; [reflexivity|exact Hn].
  - rewrite GetMany_spec. simpl. eexists _, _. split; [reflexivity|exact Hn].
Qed.

Lemma run_byte_keyed (ops : list Op) (n : TrieNode) (m : RWMutex) :
  byte_keyed n →
  ∀ n' m', run ToLower ops (mkTrie (Some n) m) = Ok (mkTrie (Some n') m') →
           byte_keyed n'.
Proof.
  revert n m. induction ops as [|o ops IH]; intros n m Hn n' m' Hrun.
  - simpl in Hrun. injection Hrun as <- <-. exact Hn.
  - destruct (step_byte_keyed o n m Hn) as (n1 & m1 & Hstep & Hn1).
    cbn [run] in Hrun. rewrite Hstep in Hrun.
    exact (IH n1 m1 Hn1 n' m' Hrun).
Qed.

(** X17.  Prefix queries and the table: after any sequence of calls on a
    new trie, every identifier that [GetMany(p, lim)] returns is kept in
    the table under a key that begins with the folded [p]; and when the
    limit is at least the number of identifiers at or below the node of
    the folded [p], every identifier kept under such a key is returned. *)
Theorem GetMany_after_run (ops : list Op) (p : string) (lim : Z) :
  ∃ t n ids t',
    run ToLower ops NewTrie = Ok t ∧ root t = Some n ∧
    GetMany ToLower p lim t = Ok (ids, t') ∧
    (∀ id, id ∈ ids →
       ∃ suffix, id ∈ stored_under ToLower (ToLower p +:+ suffix) ops) ∧
    (Z.of_nat (size (ids_below (node_at n (ToLower p)))) ≤ lim →
     ∀ id suffix,
       id ∈ stored_under ToLower (ToLower p +:+ suffix) ops → id ∈ ids).
Proof.
  destruct (run_ids_at ToLower ops NewTrie NewTrieNode eq_refl)
    as ([r m] & n & Hrun & Hroot & Hids).
  simpl in Hroot. subst r.
  assert (Hn : byte_keyed n).
  { exact (run_byte_keyed ops NewTrieNode [] byte_keyed_NewTrieNode
             n m Hrun). }
  assert (Hstored : ∀ suffix,
    stored_under ToLower (ToLower p +:+ suffix) ops =
    match node_at n (ToLower p) with
    | Some tip => ids_at tip suffix
    | None => ∅
    end).
  { intros suffix. rewrite <- ids_at_app, Hids. by rewrite ids_at_NewTrieNode. }
  eexists _, n, _, _. split; [exact Hrun|]. split; [done|].
  split; [apply GetMany_spec|]. split.
  - intros id Hid%elem_of_elements.
    assert (Hin : id ∈ ids_below (node_at n (ToLower p))).
    { destruct (depthFirst_collected lim (node_at n (ToLower p)) ∅)
        as (_ & Hsub & _).
      apply Hsub, elem_of_union in Hid as [Hid|Hid]; [|done].
      by apply not_elem_of_empty in Hid. }
    destruct (node_at n (ToLower p)) as [tip|] eqn:Hat; simpl in Hin.
    + apply subtree_ids_paths in Hin as [suffix Hs];
        [|by eapply byte_keyed_node_at].
      exists suffix. by rewrite Hstored.
    + by apply not_elem_of_empty in Hin.
  - intros Hlim id suffix Hid. rewrite Hstored in Hid.
    rewrite depthFirst_all by done. apply elem_of_elements.
    destruct (node_at n (ToLower p)) as [tip|]; simpl; [|done].
    by eapply ids_at_subtree.
Qed.

End Structure.

(** ** Every order of enumeration, and a root that is [nil] *)

Lemma depthFirst_ptr_is_a_run (max : Z) (curr : ptr) (res : IDSet.t) :
  DepthFirst max curr res (depthFirst curr max res).
Proof.
  destruct curr as [n|]; simpl.
  - apply depthFirst_is_a_run.
  - apply DepthFirst_nil.
Qed.

(** X18.  The answer of a prefix query does not depend on the order in
    which [range] enumerates the maps and [GetVals] the sets, as far as its
    size and its origin go: for a limit [lim >= 0], the result of every run
    of [depthFirst] from the node [curr] on an empty accumulator, listed in
    any order, has no duplicate, holds only identifiers stored at or below
    [curr], and has the smaller of [lim] and their number as its length. *)
Theorem depthFirst_any_order
    (lim : Z) (curr : ptr) (res : IDSet.t) (ids : list ObjectId) :
  0 ≤ lim →
  DepthFirst lim curr ∅ res →
  ids ≡ₚ IDSet.GetVals res →
  NoDup ids ∧
  (∀ id, id ∈ ids → id ∈ ids_below curr) ∧
  Z.of_nat (length ids) = Z.min lim (Z.of_nat (size (ids_below curr))).
Proof.
  intros Hlim Hrun Hids. unfold IDSet.GetVals in Hids.
  apply DepthFirst_collected, collected_from_empty in Hrun
    as (Hnd & Hsub & Hlen); [|done].
  rewrite Hids. split_and!; [done| |done].
  intros id. rewrite Hids. apply Hsub.
Qed.

Section NilRoot.

Variable ToLower : string → string.

(** X19.  On a trie whose root is [nil] (the zero value of the type, not
    one made by [NewTrie]), [Add] and [Remove] panic for every key, while
    [Get] and [GetMany] return the empty sequence for a key that folds to
    the empty string and panic for every other key. *)
Theorem nil_root_panics (m : RWMutex) (k : string) (id : ObjectId) (lim : Z) :
  Add ToLower k id (mkTrie None m) = Panic ∧
  Remove k id (mkTrie None m) = Panic ∧
  Get ToLower k (mkTrie None m) =
    (if decide (ToLower k = EmptyString)
     then Ok ([], mkTrie None (m ++ [CRLock; CRUnlock])) else Panic) ∧
  GetMany ToLower k lim (mkTrie None m) =
    (if decide (ToLower k = EmptyString)
     then Ok ([], mkTrie None (m ++ [CRLock; CRUnlock])) else Panic).
Proof.
  split_and!.
  - unfold Add; simpl. by destruct (ToLower k).
  - unfold Remove; simpl. by destruct k.
  - unfold Get; simpl. destruct (ToLower k); simpl; [|done].
    unfold mx_call; simpl. by rewrite <- app_assoc.
  - unfold GetMany; simpl. destruct (ToLower k); simpl; [|done].
    unfold mx_call; simpl. by rewrite <- app_assoc.
Qed.

End NilRoot.

(** ** Instances of the further properties *)

Lemma GetMany_nonpositive_limit_witness :
  -1 ≤ 0 ∧
  ∃ t', GetMany ToLowerASCII "a" (-1) (mkTrie (Some sample_node) []) =
          Ok ([], t').
Proof.
  split; [lia|].
  apply (GetMany_nonpositive_limit ToLowerASCII sample_node [] "a" (-1)). lia.
Defined.

Lemma GetMany_returns_all_witness :
  Z.of_nat (size (ids_below (node_at sample_node (ToLowerASCII "A")))) ≤ 3 ∧
  ∃ ids t',
    GetMany ToLowerASCII "A" 3 (mkTrie (Some sample_node) []) = Ok (ids, t') ∧
    NoDup ids ∧
    ∀ id, id ∈ ids ↔ id ∈ ids_below (node_at sample_node (ToLowerASCII "A")).
Proof.
  assert (Hlim : Z.of_nat (size (ids_below (node_at sample_node
                                              (ToLowerASCII "A")))) ≤ 3).
  { vm_compute. discriminate. }
  split; [exact Hlim|].
  apply (GetMany_returns_all ToLowerASCII sample_node [] "A" 3). exact Hlim.
Defined.

Lemma GetMany_includes_Get_witness :
  ToLowerASCII "AB" = ToLowerASCII "a" +:+ "b" ∧
  Z.of_nat (size (ids_below (node_at sample_node (ToLowerASCII "a")))) ≤ 5 ∧
  ∃ ids t1 ids' t2,
    GetMany ToLowerASCII "a" 5 (mkTrie (Some sample_node) []) = Ok (ids, t1) ∧
    Get ToLowerASCII "AB" (mkTrie (Some sample_node) []) = Ok (ids', t2) ∧
    ids' ⊆ ids.
Proof.
  assert (Hlim : Z.of_nat (size (ids_below (node_at sample_node
                                              (ToLowerASCII "a")))) ≤ 5).
  { vm_compute. discriminate. }
  split; [reflexivity|]. split; [exact Hlim|].
  apply (GetMany_includes_Get ToLowerASCII sample_node [] "a" "AB" "b" 5);
    [reflexivity|exact Hlim].
Defined.


Lemma Remove_unfolded_prefix_is_noop_witness :
  (∀ s, ToLowerASCII s ≠ "FOO") ∧
  ∃ t, run ToLowerASCII sample_ops NewTrie = Ok t ∧ Remove "FOO" "1" t = Ok t.
Proof.
  split; [exact ToLowerASCII_not_FOO|].
  apply (Remove_unfolded_prefix_is_noop ToLowerASCII sample_ops "FOO" "1").
  exact ToLowerASCII_not_FOO.
Defined.

Lemma Remove_keeps_live_nodes_witness :
  ∃ tip,
    node_at sample_node "a" = Some tip ∧
    ("a" ≠ "a" ∨ link tip ≠ ∅ ∨ IDSet tip ∖ {[ "id3" ]} ≠ ∅) ∧
    ∃ n',
      Remove "a" "id3" (mkTrie (Some sample_node) []) =
        Ok (mkTrie (Some n') []) ∧
      is_Some (node_at n' "a").
Proof.
  eexists. split; [vm_compute; reflexivity|].
  assert (Hlive : ∀ tip : TrieNode,
    tip = mkTrieNode {[ 98 := Some (mkTrieNode ∅ {[ "id1"; "id2" ]}) ]}
                     {[ "id3" ]} →
    "a" ≠ "a" ∨ link tip ≠ ∅ ∨ IDSet tip ∖ {[ "id3" ]} ≠ ∅).
  { intros tip ->. right. left. simpl. apply insert_non_empty. }
  split; [by apply Hlive|].
  eapply (Remove_keeps_live_nodes _ _ [] "a" "a" "id3");
    [vm_compute; reflexivity|by apply Hlive].
Defined.

Lemma depthFirst_any_order_witness :
  0 ≤ 2 ∧
  DepthFirst 2 (Some sample_node) ∅ (depthFirst (Some sample_node) 2 ∅) ∧
  reverse (IDSet.GetVals (depthFirst (Some sample_node) 2 ∅)) ≡ₚ
    IDSet.GetVals (depthFirst (Some sample_node) 2 ∅) ∧
  NoDup (reverse (IDSet.GetVals (depthFirst (Some sample_node) 2 ∅))) ∧
  (∀ id, id ∈ reverse (IDSet.GetVals (depthFirst (Some sample_node) 2 ∅)) →
         id ∈ ids_below (Some sample_node)) ∧
  Z.of_nat (length (reverse (IDSet.GetVals (depthFirst (Some sample_node) 2 ∅))))
    = Z.min 2 (Z.of_nat (size (ids_below (Some sample_node)))).
Proof.
  split; [lia|].
  split; [apply depthFirst_ptr_is_a_run|].
  split; [apply reverse_Permutation|].
  apply (depthFirst_any_order 2 (Some sample_node)
           (depthFirst (Some sample_node) 2 ∅)).
  - lia.
  - apply depthFirst_ptr_is_a_run.
  - apply reverse_Permutation.
Defined.
